(** * GEDCOM conversion pipeline of the viewer (src/app.tsx)

    A shallow embedding of the data-conversion functions of [app.tsx]
    ([pointerToId], [prepareGedcom], [strcmp], [birthDatesComparator],
    [sortFamilyChildren], [sortChildren], [isImageFile], [filterImage],
    [filterImages], [convertGedcom], [getSoftware]) together with the
    properties stated about them.

    Conventions of the embedding.
    - A JavaScript string is a [string]: a sequence of code units below 256
      (the Latin-1 range of UTF-16).  The relational operators [<] and [>]
      on strings are the lexicographic comparison of code units, which is
      [String.ltb].
    - The numbers the pipeline computes with are calendar fields (year,
      month, day) and their differences: integers, modelled by [Z].
    - An optional property [p?: T] is an [option T]; truthiness tests are
      written out ([truthy_string], [truthy_num]).
    - An object used as a dictionary ([indis], [fams], [other]) is its
      table of own properties, a [gmap string _].  The assignment [o[k] = v]
      files [v] under [k], except under the key '__proto__', which reaches
      the setter inherited from [Object.prototype] and replaces the
      prototype of [o] instead ([obj_set]).
    - [idToIndiMap] is a [Map] instance that the code writes to and reads
      from as an object.  Writing the key 'size' reaches the getter-only
      accessor [Map.prototype.size] and throws a [TypeError] in the strict
      code of a module ([fill_throws]); once the loop has completed, what
      the reads find is a [gmap string _] ([idToIndiMap]).
    - [Array.prototype.sort] sorts the receiver in place and returns the
      receiver.  Arrays that are sorted therefore live in a store
      ([Heap]) and are referred to by location. *)

From Stdlib Require Import ZArith String Ascii List Bool Lia Sorted.
From stdpp Require Import gmap strings list fin_maps.

#[local] Set Warnings "-register-all".

Local Open Scope string_scope.
Local Open Scope list_scope.
Local Open Scope Z_scope.

(** ** JavaScript primitives used by the source *)

(** [s.substring(start, stop)]: both indices are clamped to [0, length] and
    swapped when [start > stop]. *)
Definition js_substring (s : string) (start stop : Z) : string :=
  let len := Z.of_nat (String.length s) in
  let a := Z.min (Z.max start 0) len in
  let b := Z.min (Z.max stop 0) len in
  let lo := Z.min a b in
  let hi := Z.max a b in
  String.substring (Z.to_nat lo) (Z.to_nat (hi - lo)) s.

(** [s.startsWith(p)]. *)
Definition js_startsWith (s p : string) : bool := String.prefix p s.

(** [s.endsWith(p)]: the last [length p] code units of [s] are [p]. *)
Definition js_endsWith (s p : string) : bool :=
  let n := String.length s in
  let m := String.length p in
  (m <=? n)%nat && String.eqb (String.substring (n - m) m s) p.

(** [String.prototype.toLowerCase] on one code unit of the Latin-1 range:
    A..Z and the accented capitals U+00C0..U+00DE (except the multiplication
    sign U+00D7) move up by 32, every other unit is unchanged. *)
Definition lower_unit (c : ascii) : ascii :=
  let n := N_of_ascii c in
  if ((65 <=? n) && (n <=? 90))%N then ascii_of_N (n + 32)
  else if ((192 <=? n) && (n <=? 222) && negb (n =? 215))%N
       then ascii_of_N (n + 32)
  else c.

Fixpoint js_toLowerCase (s : string) : string :=
  match s with
  | EmptyString => EmptyString
  | String c s' => String (lower_unit c) (js_toLowerCase s')
  end.

(** Truthiness of a string (the empty string is falsy) and of a number
    (zero is falsy). *)
Definition truthy_string (s : string) : bool := negb (String.eqb s "").
Definition truthy_num (n : Z) : bool := negb (Z.eqb n 0).

(** [a.find(p)]: the first element satisfying [p]. *)
Definition js_find {A : Type} (p : A -> bool) (l : list A) : option A :=
  List.find p l.

(** ** GEDCOM entries and the record index *)

(** [GedcomEntry] of the parser.  [pointer] is passed to
    [pointerToId (pointer : string)], so it is a string (empty when the line
    has no cross-reference); [data] is only tested for truthiness. *)
Inductive GedcomEntry : Type :=
  mkEntry { tag : string;
            pointer : string;
            data : option string;
            tree : list GedcomEntry }.

(** [GedcomData]; its dictionaries [indis], [fams] and [other] are
    [gd_indis], [gd_fams] and [gd_other] here.  [head] is the result of a
    [find], absent when no entry is tagged HEAD. *)
Record GedcomData : Type :=
  mkGedcomData { head : option GedcomEntry;
                 gd_indis : gmap string GedcomEntry;
                 gd_fams : gmap string GedcomEntry;
                 gd_other : gmap string GedcomEntry }.

(** [pointerToId]: '@I123@' -> 'I123'. *)
Definition pointerToId (pointer : string) : string :=
  js_substring pointer 1 (Z.of_nat (String.length pointer) - 1).

(** [o[k] = v] on an object created by [{}] and used as a dictionary: an own
    property is created or overwritten, except for the key '__proto__'.
    That key reaches the setter of [Object.prototype.__proto__], which makes
    the object [v] the prototype of [o] and files no own property. *)
Definition obj_set {V : Type} (k : string) (v : V) (o : gmap string V)
  : gmap string V :=
  if String.eqb k "__proto__" then o else <[k := v]> o.

(** The three dictionaries that the [forEach] of [prepareGedcom] fills. *)
Record Indices : Type :=
  mkIndices { ix_indis : gmap string GedcomEntry;
              ix_fams : gmap string GedcomEntry;
              ix_other : gmap string GedcomEntry }.

(** Body of the [forEach] callback of [prepareGedcom]. *)
Definition index_entry (ix : Indices) (entry : GedcomEntry) : Indices :=
  if String.eqb (tag entry) "INDI" then
    mkIndices (obj_set (pointerToId (pointer entry)) entry (ix_indis ix))
              (ix_fams ix) (ix_other ix)
  else if String.eqb (tag entry) "FAM" then
    mkIndices (ix_indis ix)
              (obj_set (pointerToId (pointer entry)) entry (ix_fams ix))
              (ix_other ix)
  else if truthy_string (pointer entry) then
    mkIndices (ix_indis ix) (ix_fams ix)
              (obj_set (pointerToId (pointer entry)) entry (ix_other ix))
  else ix.

Definition prepareGedcom (entries : list GedcomEntry) : GedcomData :=
  let head := js_find (fun entry => String.eqb (tag entry) "HEAD") entries in
  let ix := fold_left index_entry entries (mkIndices ∅ ∅ ∅) in
  mkGedcomData head (ix_indis ix) (ix_fams ix) (ix_other ix).

(** [getSoftware]: HEAD/SOUR/NAME lookup.  [head && ...] guards an absent
    head; a [tree] is an array, hence truthy even when empty. *)
Definition getSoftware (head : option GedcomEntry) : option string :=
  let sour :=
    match head with
    | Some h => js_find (fun entry => String.eqb (tag entry) "SOUR") (tree h)
    | None => None
    end in
  let name :=
    match sour with
    | Some s => js_find (fun entry => String.eqb (tag entry) "NAME") (tree s)
    | None => None
    end in
  match name with
  | Some n =>
      match data n with
      | Some d => if truthy_string d then Some d else None
      | None => None
      end
  | None => None
  end.

(** ** Chart data *)

Record JsonDate : Type :=
  mkDate { year : option Z; month : option Z; day : option Z }.

Record JsonDateRange : Type :=
  mkDateRange { from : option JsonDate }.

Record JsonEvent : Type :=
  mkEvent { date : option JsonDate; dateRange : option JsonDateRange }.

Record JsonImage : Type :=
  mkImage { url : string; title : option string }.

(** The fields of an individual that the pipeline reads.  The fields [id]
    and [images] of the source are [indi_id] and [indi_images] here. *)
Record JsonIndi : Type :=
  mkIndi { indi_id : string;
           birth : option JsonEvent;
           indi_images : option (list JsonImage) }.

(** Locations of the arrays of child identifiers, and the store holding
    their contents. *)
Definition loc : Type := nat.
Abbreviation Heap := (gmap nat (list string)).

(** A family refers to its array of children by location. *)
Record JsonFam : Type :=
  mkFam { children : option loc }.

Record JsonGedcomData : Type :=
  mkJson { indis : list JsonIndi; fams : list JsonFam }.

(** ** Comparing individuals by birth date *)

Definition strcmp (a b : string) : Z :=
  if String.ltb a b then -1
  else if String.ltb b a then 1
  else 0.

(** The value of a numeric field when it is truthy (present and not 0). *)
Definition truthy_val (o : option Z) : option Z :=
  match o with
  | Some n => if truthy_num n then Some n else None
  | None => None
  end.

(** Whether the loop [indis.forEach(indi => idToIndiMap[indi.id] = indi)]
    throws.  [idToIndiMap] is a [Map] instance written to as an object:
    - for the id 'size' the assignment finds the accessor
      [Map.prototype.size], which has a getter and no setter, and throws a
      [TypeError] (strict code), as long as [Map.prototype] is on the
      prototype chain of the object;
    - for the id '__proto__' it reaches the setter of
      [Object.prototype.__proto__], which makes the individual the prototype
      of the object and so takes [Map.prototype] off the chain;
    - for any other id it creates or overwrites an own property.
    [replaced] tells whether an earlier individual has replaced the
    prototype. *)
Fixpoint fill_throws (replaced : bool) (indis : list JsonIndi) : bool :=
  match indis with
  | [] => false
  | indi :: rest =>
      if String.eqb (indi_id indi) "__proto__" then fill_throws true rest
      else if String.eqb (indi_id indi) "size" && negb replaced then true
      else fill_throws replaced rest
  end.

Definition idToIndiMap_throws (gedcom : JsonGedcomData) : bool :=
  fill_throws false (indis gedcom).

(** [idToIndiMap] once the loop has completed, as the map from an id to the
    individual that the read [idToIndiMap[id]] finds: the own property of
    that name, or, under '__proto__', the individual that has become the
    prototype; in both cases the last individual of the sequence with that
    id.  What a read finds otherwise through the prototype chain (a member
    of [Map.prototype] or [Object.prototype], a field of the individual
    that has become the prototype) is not an individual and has no [birth];
    it is absent here. *)
Definition idToIndiMap (gedcom : JsonGedcomData) : gmap string JsonIndi :=
  fold_left (fun m indi => <[indi_id indi := indi]> m) (indis gedcom) ∅.

(** [birth && (birth.date || (birth.dateRange && birth.dateRange.from))]
    for [birth = indi && indi.birth]. *)
Definition resolved_date (indi : option JsonIndi) : option JsonDate :=
  match indi with
  | Some i =>
      match birth i with
      | Some b =>
          match date b with
          | Some d => Some d
          | None =>
              match dateRange b with
              | Some r => from r
              | None => None
              end
          end
      | None => None
      end
  | None => None
  end.

(** The comparator that [birthDatesComparator] returns when the loop that
    fills [idToIndiMap] has completed ([idToIndiMap_throws] tells when it
    does not). *)
Definition birthDatesComparator (gedcom : JsonGedcomData)
  : string -> string -> Z :=
  let idToIndiMap := idToIndiMap gedcom in
  fun indiId1 indiId2 =>
    let idComparison := strcmp indiId1 indiId2 in
    let date1 := resolved_date (idToIndiMap !! indiId1) in
    let date2 := resolved_date (idToIndiMap !! indiId2) in
    match date1, date2 with
    | Some d1, Some d2 =>
        match truthy_val (year d1), truthy_val (year d2) with
        | Some y1, Some y2 =>
            if negb (Z.eqb y1 y2) then y1 - y2
            else
              match truthy_val (month d1), truthy_val (month d2) with
              | Some m1, Some m2 =>
                  if negb (Z.eqb m1 m2) then m1 - m2
                  else
                    match truthy_val (day d1), truthy_val (day d2) with
                    | Some a1, Some a2 =>
                        if negb (Z.eqb a1 a2) then m1 - m2
                        else idComparison
                    | _, _ => idComparison
                    end
              | _, _ => idComparison
              end
        | _, _ => idComparison
        end
    | _, _ => idComparison
    end.

(** ** Sorting the children of a family *)

(** [Array.prototype.sort(comparator)] on the contents of an array.  The
    engine's algorithm is not part of the source; the model is a stable
    insertion sort (an element moves in front of the first element it does
    not compare greater than).  ECMAScript fixes the result of the sort
    only for a comparator that is consistent for the elements of the array:
    there every engine returns the stable sorted rearrangement, as the
    model does.  For other comparators the order is implementation-defined
    and only what holds of every rearrangement carries over to the code. *)
Fixpoint sort_insert {A : Type} (cmp : A -> A -> Z) (x : A) (l : list A)
  : list A :=
  match l with
  | [] => [x]
  | y :: l' => if cmp x y <=? 0 then x :: y :: l'
               else y :: sort_insert cmp x l'
  end.

Fixpoint js_sort {A : Type} (cmp : A -> A -> Z) (l : list A) : list A :=
  match l with
  | [] => []
  | x :: l' => sort_insert cmp x (js_sort cmp l')
  end.

(** [sortFamilyChildren]: [fam.children.sort(comparator)] rearranges the
    array at the location of [fam.children] and returns that same location,
    which [Object.assign] stores in the new family. *)
Definition sortFamilyChildren (fam : JsonFam) (comparator : string -> string -> Z)
  (h : Heap) : JsonFam * Heap :=
  match children fam with
  | None => (fam, h)
  | Some l =>
      let h' := alter (js_sort comparator) l h in
      let newChildren := l in
      (mkFam (Some newChildren), h')
  end.

(** [a.map(f)] for a callback that acts on the store, left to right. *)
Fixpoint map_heap {A B : Type} (f : A -> Heap -> B * Heap) (l : list A)
  (h : Heap) : list B * Heap :=
  match l with
  | [] => ([], h)
  | x :: l' =>
      let '(y, h1) := f x h in
      let '(ys, h2) := map_heap f l' h1 in
      (y :: ys, h2)
  end.

(** [sortChildren] once its comparator is built: the families are mapped
    in order. *)
Definition sortChildren (gedcom : JsonGedcomData) (h : Heap)
  : JsonGedcomData * Heap :=
  let comparator := birthDatesComparator gedcom in
  let '(newFams, h') :=
    map_heap (fun fam => sortFamilyChildren fam comparator) (fams gedcom) h in
  (mkJson (indis gedcom) newFams, h').

(** ** Filtering images *)

Definition IMAGE_EXTENSIONS : list string := [".jpg"; ".png"; ".gif"].

(** Returns true if the given file name has a known image extension. *)
Definition isImageFile (fileName : string) : bool :=
  let lowerName := js_toLowerCase fileName in
  existsb (fun ext => js_endsWith lowerName ext) IMAGE_EXTENSIONS.

(** The two characters excluded by the class [[^/\\]]: slash (code 47) and
    backslash (code 92). *)
Definition is_sep (c : ascii) : bool :=
  (N_of_ascii c =? 47)%N || (N_of_ascii c =? 92)%N.

Fixpoint no_sep (s : string) : bool :=
  match s with
  | EmptyString => true
  | String c s' => negb (is_sep c) && no_sep s'
  end.

(** [url.match(/[^/\\]*$/)[0]]: the match at the leftmost position from which
    a run of non-separators reaches the end of the string.  The empty run at
    the end always matches, so the result is never [null]. *)
Fixpoint match_fileName (s : string) : string :=
  if no_sep s then s
  else match s with
       | EmptyString => EmptyString
       | String _ s' => match_fileName s'
       end.

(** Body of the [forEach] callback of [filterImage]; [push] appends. *)
Definition filter_step (images : gmap string string)
  (newImages : list JsonImage) (image : JsonImage) : list JsonImage :=
  let fileName := match_fileName (url image) in
  match images !! fileName with
  | Some mapped => newImages ++ [mkImage mapped (title image)]
  | None =>
      if js_startsWith (url image) "http" && isImageFile (url image)
      then newImages ++ [image]
      else newImages
  end.

Definition filterImage (indi : JsonIndi) (images : gmap string string)
  : JsonIndi :=
  match indi_images indi with
  | None => indi
  | Some [] => indi
  | Some imgs =>
      let newImages := fold_left (filter_step images) imgs [] in
      mkIndi (indi_id indi) (birth indi) (Some newImages)
  end.

Definition filterImages (gedcom : JsonGedcomData) (images : gmap string string)
  : JsonGedcomData :=
  let newIndis := map (fun indi => filterImage indi images) (indis gedcom) in
  mkJson newIndis (fams gedcom).

(** ** The conversion *)

Record TopolaData : Type :=
  mkTopolaData { chartData : JsonGedcomData; gedcom : GedcomData }.

(** What [gedcomEntriesToJson] hands back, before [convertGedcom] has
    checked it: the object or either sequence may be missing. *)
Record RawJson : Type :=
  mkRawJson { raw_indis : option (list JsonIndi);
              raw_fams : option (list JsonFam) }.

(** The chart data behind the guard
    [!json || !json.indis || !json.indis.length || !json.fams || !json.fams.length];
    [None] when the guard fires. *)
Definition checked (json : option RawJson) : option JsonGedcomData :=
  match json with
  | None => None
  | Some j =>
      match raw_indis j with
      | None => None
      | Some inds =>
          if (length inds =? 0)%nat then None
          else
            match raw_fams j with
            | None => None
            | Some fs =>
                if (length fs =? 0)%nat then None
                else Some (mkJson inds fs)
            end
      end
  end.

Section Conversion.

(** [parseGedcom] (package parse-gedcom) and [gedcomEntriesToJson]
    (package topola) are external.  Either may throw, and what it throws
    propagates through [convertGedcom]; the converter also allocates the
    arrays of the chart data, so it returns the store holding them.
    [convertGedcom] itself throws the [Error] of its guard, and lets through
    the [TypeError] that [sortChildren] meets when [birthDatesComparator]
    cannot fill [idToIndiMap]. *)
Variable Upstream : Type.
Variable parseGedcom : string -> Upstream + list GedcomEntry.
Variable gedcomEntriesToJson :
  list GedcomEntry -> Upstream + (option RawJson * Heap).

Inductive Thrown : Type :=
| UpstreamFailure (e : Upstream)
| Error (message : string)
| TypeError.

Definition convertGedcom (gedcom : string) (images : gmap string string)
  : Thrown + (TopolaData * Heap) :=
  match parseGedcom gedcom with
  | inl e => inl (UpstreamFailure e)
  | inr entries =>
      match gedcomEntriesToJson entries with
      | inl e => inl (UpstreamFailure e)
      | inr (json, h) =>
          match checked json with
          | None => inl (Error "Failed to read GEDCOM file")
          | Some json =>
              if idToIndiMap_throws json then inl TypeError
              else
                let '(sorted, h') := sortChildren json h in
                inr (mkTopolaData (filterImages sorted images)
                                  (prepareGedcom entries), h')
          end
      end
  end.

End Conversion.

Arguments UpstreamFailure {Upstream} e.
Arguments Error {Upstream} message.
Arguments TypeError {Upstream}.
(** ** Vocabulary of the statements *)

(** Which entries the three dictionaries receive under key [k]. *)
Definition in_indis (k : string) (e : GedcomEntry) : Prop :=
  tag e = "INDI" ∧ pointerToId (pointer e) = k.
Definition in_fams (k : string) (e : GedcomEntry) : Prop :=
  tag e = "FAM" ∧ pointerToId (pointer e) = k.
Definition in_other (k : string) (e : GedcomEntry) : Prop :=
  tag e ≠ "INDI" ∧ tag e ≠ "FAM" ∧ pointer e ≠ "" ∧
  pointerToId (pointer e) = k.

#[local] Instance in_indis_dec k e : Decision (in_indis k e).
Proof. unfold in_indis. apply _. Defined.
#[local] Instance in_fams_dec k e : Decision (in_fams k e).
Proof. unfold in_fams. apply _. Defined.
#[local] Instance in_other_dec k e : Decision (in_other k e).
Proof. unfold in_other. apply _. Defined.

(** The last of the selected entries, else what the dictionary held. *)
Definition last_or {A : Type} (l : list A) (o : option A) : option A :=
  match last l with
  | Some x => Some x
  | None => o
  end.


(** The individual that the comparator finds under an id. *)
Definition indi_of (g : JsonGedcomData) (id : string) : option JsonIndi :=
  idToIndiMap g !! id.

(** The birth date the comparator works with: [date], else
    [dateRange.from]. *)
Definition birth_date_of (g : JsonGedcomData) (id : string) : option JsonDate :=
  resolved_date (indi_of g id).

(** No individual of the chart data carries the id. *)
Definition unresolved (g : JsonGedcomData) (id : string) : Prop :=
  ∀ i, i ∈ indis g → indi_id i ≠ id.

(** The id resolves, but to an individual without a usable birth date. *)
Definition no_usable_date (g : JsonGedcomData) (id : string) : Prop :=
  ∃ i, indi_of g id = Some i ∧ resolved_date (Some i) = None.

(** The id resolves to a birth date without a year. *)
Definition lacks_year (g : JsonGedcomData) (id : string) : Prop :=
  ∃ d, birth_date_of g id = Some d ∧ year d = None.

(** A sequence is sorted by a comparator when no element compares greater
    than its successor. *)
Definition sorted_by {A : Type} (cmp : A → A → Z) (l : list A) : Prop :=
  Sorted (λ a b, cmp a b <= 0) l.

(** Splitting a path on '/' and '\': the segments, in order (one more than
    there are separators). *)
Fixpoint split_path (s : string) : list string :=
  match s with
  | EmptyString => [EmptyString]
  | String c s' =>
      if is_sep c then EmptyString :: split_path s'
      else match split_path s' with
           | seg :: rest => String c seg :: rest
           | [] => [String c EmptyString]
           end
  end.

(** The file name of a url: its last path segment. *)
Definition last_segment (s : string) : string :=
  default EmptyString (last (split_path s)).

(** The url starts with the literal prefix 'http'. *)
Definition starts_with_http (u : string) : Prop :=
  ∃ rest, u = "http" +:+ rest.

(** The lower-cased url ends with '.jpg', '.png' or '.gif'. *)
Definition has_image_extension (u : string) : Prop :=
  ∃ stem ext, ext ∈ [".jpg"; ".png"; ".gif"] ∧
              js_toLowerCase u = stem +:+ ext.

(** The images that survive the filter, as a relation between the sequence
    of an individual and the filtered sequence: an image whose file name is
    a key of the mapping is kept with the mapped url and its own title; any
    other image is kept as it is when it is an http link with an image
    extension, and dropped otherwise. *)
Inductive filtered (images : gmap string string)
  : list JsonImage → list JsonImage → Prop :=
| filtered_nil : filtered images [] []
| filtered_mapped img mapped rest out :
    images !! last_segment (url img) = Some mapped →
    filtered images rest out →
    filtered images (img :: rest) (mkImage mapped (title img) :: out)
| filtered_link img rest out :
    images !! last_segment (url img) = None →
    starts_with_http (url img) ∧ has_image_extension (url img) →
    filtered images rest out →
    filtered images (img :: rest) (img :: out)
| filtered_drop img rest out :
    images !! last_segment (url img) = None →
    ¬ (starts_with_http (url img) ∧ has_image_extension (url img)) →
    filtered images rest out →
    filtered images (img :: rest) out.

(** The output of the converter has a missing or empty sequence of
    individuals (of families); an absent output has neither sequence. *)
Definition no_individuals (json : option RawJson) : Prop :=
  match json with
  | None => True
  | Some j => raw_indis j = None ∨ raw_indis j = Some []
  end.

Definition no_families (json : option RawJson) : Prop :=
  match json with
  | None => True
  | Some j => raw_fams j = None ∨ raw_fams j = Some []
  end.

(** ** Example data *)

Definition ex_entries : list GedcomEntry :=
  [ mkEntry "HEAD" "" None [];
    mkEntry "INDI" "@I1@" (Some "first") [];
    mkEntry "FAM" "@F1@" None [];
    mkEntry "NOTE" "@N1@" (Some "text") [];
    mkEntry "INDI" "@I1@" (Some "second") [];
    mkEntry "TRLR" "" None [] ].


Definition born (id : string) (y m d : Z) : JsonIndi :=
  mkIndi id (Some (mkEvent (Some (mkDate (Some y) (Some m) (Some d))) None))
         None.

(** Two individuals born on 1 and 2 May 1900. *)
Definition ex_chart_days : JsonGedcomData :=
  mkJson [born "I1" 1900 5 1; born "I2" 1900 5 2] [mkFam (Some 0%nat)].

(** Dates whose year, month or day is the number 0. *)
Definition ex_chart_year0 : JsonGedcomData :=
  mkJson [born "I1" 0 5 1; born "I2" 0 5 2] [mkFam (Some 0%nat)].
Definition ex_chart_month0 : JsonGedcomData :=
  mkJson [born "I1" 1900 0 1; born "I2" 1900 0 2] [mkFam (Some 0%nat)].
Definition ex_chart_day0 : JsonGedcomData :=
  mkJson [born "I1" 1900 5 0; born "I2" 1900 5 2] [mkFam (Some 0%nat)].

(** Individuals without birth records. *)
Definition ex_chart_plain : JsonGedcomData :=
  mkJson [mkIndi "I1" None None; mkIndi "I2" None None] [mkFam (Some 0%nat)].

(** A store with one array of children, at location 0. *)
Definition ex_heap_unsorted : Heap := {[ 0%nat := ["I2"; "I1"] ]}.
Definition ex_heap_sorted : Heap := {[ 0%nat := ["I1"; "I2"] ]}.
Definition ex_fam : JsonFam := mkFam (Some 0%nat).

(** An individual with four images, and a mapping holding one file name. *)
Definition ex_images : list JsonImage :=
  [ mkImage "ftp://example.com/a.jpg" None;
    mkImage "http://example.com/a.jpg" (Some "a");
    mkImage "media/photo.jpg" (Some "photo");
    mkImage "https://example.com/a.PNG" None ].
Definition ex_indi : JsonIndi := mkIndi "I1" None (Some ex_images).
Definition ex_overrides : gmap string string :=
  {[ "photo.jpg" := "blob:1234" ]}.

(** A parser and a converter that produce the example data. *)
Definition ex_parse (text : string) : Empty_set + list GedcomEntry :=
  inr ex_entries.
Definition ex_convert (entries : list GedcomEntry)
  : Empty_set + (option RawJson * Heap) :=
  inr (Some (mkRawJson (Some [ex_indi; mkIndi "I2" None None])
                       (Some [ex_fam])),
       ex_heap_unsorted).

(** A file with an individual whose id is 'size', as parsed and as
    converted. *)
Definition ex_entries_size : list GedcomEntry :=
  [ mkEntry "HEAD" "" None [];
    mkEntry "INDI" "@size@" None [mkEntry "FAMC" "" (Some "@F1@") []];
    mkEntry "FAM" "@F1@" None [mkEntry "CHIL" "" (Some "@size@") []];
    mkEntry "TRLR" "" None [] ].
Definition ex_heap_size : Heap := {[ 0%nat := ["size"] ]}.
Definition ex_parse_size (text : string) : Empty_set + list GedcomEntry :=
  inr ex_entries_size.
Definition ex_convert_size (entries : list GedcomEntry)
  : Empty_set + (option RawJson * Heap) :=
  inr (Some (mkRawJson (Some [mkIndi "size" None None]) (Some [ex_fam])),
       ex_heap_size).

(** ** The application state consulted before loading *)

(** The fields of the component state that [isNewData] reads: the hash and
    the url of the data that is loaded or being loaded. *)
Record State : Type :=
  mkState { st_hash : option string; st_url : option string }.

(** Truthiness of an optional string: present and not empty. *)
Definition truthy_opt (o : option string) : bool :=
  match o with
  | Some s => truthy_string s
  | None => false
  end.

(** [a !== b] on optional strings. *)
Definition strict_neq (a b : option string) : bool :=
  negb (bool_decide (a = b)).

(** [App.isNewData]:
    [!!(hash && hash !== this.state.hash) || !!(url && this.state.url !== url)]. *)
Definition isNewData (state : State) (hash url : option string) : bool :=
  (truthy_opt hash && strict_neq hash (st_hash state))
  || (truthy_opt url && strict_neq (st_url state) url).

(** ** Further vocabulary *)

(** Two optional arrays hold the same elements: both absent, or both present
    and one a rearrangement of the other. *)
Definition same_elements (o1 o2 : option (list string)) : Prop :=
  match o1, o2 with
  | Some a, Some b => a ≡ₚ b
  | None, None => True
  | _, _ => False
  end.

(** A comparator that relates any two elements one way or the other, and
    does so transitively. *)
Definition connex {A : Type} (cmp : A → A → Z) : Prop :=
  ∀ a b, cmp a b <= 0 ∨ cmp b a <= 0.
Definition transitive {A : Type} (cmp : A → A → Z) : Prop :=
  ∀ a b c, cmp a b <= 0 → cmp b c <= 0 → cmp a c <= 0.

(** A comparator that is consistent for the values of [S], in the sense
    of ECMAScript (Array.prototype.sort): on these values equality under
    the comparator is reflexive, symmetric and transitive, and less-than
    and greater-than under the comparator are transitive.  For such a
    comparator the language fixes the result of the sort. *)
Definition consistent_on {A : Type} (cmp : A → A → Z) (S : list A) : Prop :=
  (∀ a, a ∈ S → cmp a a = 0) ∧
  (∀ a b, a ∈ S → b ∈ S → cmp a b = 0 → cmp b a = 0) ∧
  (∀ a b c, a ∈ S → b ∈ S → c ∈ S →
            cmp a b = 0 → cmp b c = 0 → cmp a c = 0) ∧
  (∀ a b c, a ∈ S → b ∈ S → c ∈ S →
            cmp a b < 0 → cmp b c < 0 → cmp a c < 0) ∧
  (∀ a b c, a ∈ S → b ∈ S → c ∈ S →
            cmp a b > 0 → cmp b c > 0 → cmp a c > 0).

(** The test of [filterImage] for an image without override. *)
Definition accepted_link (image : JsonImage) : bool :=
  js_startsWith (url image) "http" && isImageFile (url image).

(** ** Further example data *)

Definition ex_head : GedcomEntry :=
  mkEntry "HEAD" "" None
    [ mkEntry "CHAR" "" (Some "UTF-8") [];
      mkEntry "SOUR" "" (Some "APP") [mkEntry "VERS" "" (Some "1") []];
      mkEntry "SOUR" "" (Some "OTHER") [mkEntry "NAME" "" (Some "Other") []] ].

(** Births in different years, in different months of a year, and on the
    same day. *)
Definition ex_chart_years : JsonGedcomData :=
  mkJson [born "I1" 1901 1 1; born "I2" 1900 12 31] [mkFam (Some 0%nat)].
Definition ex_chart_months : JsonGedcomData :=
  mkJson [born "I1" 1900 7 1; born "I2" 1900 3 1] [mkFam (Some 0%nat)].
Definition ex_chart_twins : JsonGedcomData :=
  mkJson [born "I1" 1900 5 1; born "I2" 1900 5 1] [mkFam (Some 0%nat)].

(** Three births in May 1900, the first and the third on the same day. *)
Definition ex_chart_may : JsonGedcomData :=
  mkJson [born "I1" 1900 5 1; born "I2" 1900 5 2; born "I3" 1900 5 1]
         [mkFam (Some 0%nat)].
(** * Properties *)

(** ** The record index *)

Lemma last_or_snoc_True {A : Type} (P : A → Prop) `{!∀ x, Decision (P x)}
  (l : list A) (x : A) (o : option A) :
  P x → last_or (filter P (l ++ [x])) o = Some x.
Proof.
  intros HP. unfold last_or.
  rewrite filter_app, (filter_cons_True P x []) by done.
  rewrite filter_nil. by rewrite last_snoc.
Qed.

Lemma last_or_snoc_False {A : Type} (P : A → Prop) `{!∀ x, Decision (P x)}
  (l : list A) (x : A) (o : option A) :
  ¬ P x → last_or (filter P (l ++ [x])) o = last_or (filter P l) o.
Proof.
  intros HP. unfold last_or.
  rewrite filter_app, (filter_cons_False P x []) by done.
  rewrite filter_nil. by rewrite app_nil_r.
Qed.

Lemma truthy_string_spec (s : string) : truthy_string s = true ↔ s ≠ "".
Proof.
  unfold truthy_string. rewrite negb_true_iff. apply String.eqb_neq.
Qed.

Lemma obj_set_lookup_eq {V : Type} (k : string) (v : V)
  (o : gmap string V) :
  k ≠ "__proto__" → obj_set k v o !! k = Some v.
Proof.
  intros Hk. unfold obj_set. apply String.eqb_neq in Hk. rewrite Hk.
  apply lookup_insert_eq.
Qed.

Lemma obj_set_lookup_ne {V : Type} (k j : string) (v : V)
  (o : gmap string V) :
  k ≠ j → obj_set k v o !! j = o !! j.
Proof.
  intros Hk. unfold obj_set. destruct (String.eqb k "__proto__"); [done|].
  by apply lookup_insert_ne.
Qed.

Lemma obj_set_lookup_proto {V : Type} (k : string) (v : V)
  (o : gmap string V) :
  obj_set k v o !! "__proto__" = o !! "__proto__".
Proof.
  unfold obj_set. destruct (String.eqb_spec k "__proto__") as [|Hk]; [done|].
  by apply lookup_insert_ne.
Qed.

Lemma fold_index_entry_lookup (entries : list GedcomEntry) (ix : Indices)
  (k : string) :
  k ≠ "__proto__" →
  let r := fold_left index_entry entries ix in
  ix_indis r !! k = last_or (filter (in_indis k) entries) (ix_indis ix !! k) ∧
  ix_fams r !! k = last_or (filter (in_fams k) entries) (ix_fams ix !! k) ∧
  ix_other r !! k = last_or (filter (in_other k) entries) (ix_other ix !! k).
Proof.
  intros Hproto.
  induction entries as [|e entries IH] using rev_ind; [done|].
  cbn zeta in *. rewrite fold_left_app. cbn [fold_left].
  destruct IH as (IHi & IHf & IHo).
  set (r := fold_left index_entry entries ix) in *.
  unfold index_entry.
  destruct (String.eqb_spec (tag e) "INDI") as [Hi|Hi].
  { cbn [ix_indis ix_fams ix_other].
    rewrite (last_or_snoc_False (in_fams k))
      by (unfold in_fams; intros [? _]; congruence).
    rewrite (last_or_snoc_False (in_other k)) by (unfold in_other; tauto).
    split_and!; [|done..].
    destruct (decide (pointerToId (pointer e) = k)) as [Hk|Hk].
    - rewrite (last_or_snoc_True (in_indis k)) by done.
      subst k. by rewrite obj_set_lookup_eq.
    - rewrite (last_or_snoc_False (in_indis k)) by (unfold in_indis; tauto).
      by rewrite obj_set_lookup_ne. }
  destruct (String.eqb_spec (tag e) "FAM") as [Hf|Hf].
  { cbn [ix_indis ix_fams ix_other].
    rewrite (last_or_snoc_False (in_indis k)) by (unfold in_indis; tauto).
    rewrite (last_or_snoc_False (in_other k)) by (unfold in_other; tauto).
    split_and!; [done| |done].
    destruct (decide (pointerToId (pointer e) = k)) as [Hk|Hk].
    - rewrite (last_or_snoc_True (in_fams k)) by done.
      subst k. by rewrite obj_set_lookup_eq.
    - rewrite (last_or_snoc_False (in_fams k)) by (unfold in_fams; tauto).
      by rewrite obj_set_lookup_ne. }
  rewrite (last_or_snoc_False (in_indis k)) by (unfold in_indis; tauto).
  rewrite (last_or_snoc_False (in_fams k)) by (unfold in_fams; tauto).
  destruct (truthy_string (pointer e)) eqn:Hp.
  - apply truthy_string_spec in Hp.
    cbn [ix_indis ix_fams ix_other]. split_and!; [done..|].
    destruct (decide (pointerToId (pointer e) = k)) as [Hk|Hk].
    + rewrite (last_or_snoc_True (in_other k)) by done.
      subst k. by rewrite obj_set_lookup_eq.
    + rewrite (last_or_snoc_False (in_other k)) by (unfold in_other; tauto).
      by rewrite obj_set_lookup_ne.
  - assert (pointer e = "") as Hp'.
    { destruct (decide (pointer e = "")) as [|Hne]; [done|].
      apply truthy_string_spec in Hne. congruence. }
    rewrite (last_or_snoc_False (in_other k)) by (unfold in_other; tauto).
    done.
Qed.

(** No entry is ever filed under '__proto__'. *)
Lemma fold_index_entry_proto (entries : list GedcomEntry) (ix : Indices) :
  let r := fold_left index_entry entries ix in
  ix_indis r !! "__proto__" = ix_indis ix !! "__proto__" ∧
  ix_fams r !! "__proto__" = ix_fams ix !! "__proto__" ∧
  ix_other r !! "__proto__" = ix_other ix !! "__proto__".
Proof.
  induction entries as [|e entries IH] using rev_ind; [done|].
  cbn zeta in *. rewrite fold_left_app. cbn [fold_left].
  destruct IH as (IHi & IHf & IHo).
  set (r := fold_left index_entry entries ix) in *.
  unfold index_entry.
  destruct (String.eqb (tag e) "INDI"); [|destruct (String.eqb (tag e) "FAM");
    [|destruct (truthy_string (pointer e))]];
    cbn [ix_indis ix_fams ix_other]; rewrite ?obj_set_lookup_proto; done.
Qed.





Example prepareGedcom_last_wins :
  gd_indis (prepareGedcom ex_entries) !! "I1"
  = Some (mkEntry "INDI" "@I1@" (Some "second") []).
Proof. vm_compute. reflexivity. Qed.

(** ** The authoring software *)

(** C9. [getSoftware] never returns the empty string.  It returns a name
    exactly when the HEAD/SOUR/NAME chain exists and the NAME entry has a
    non-empty data field; when the data field is empty or missing it returns
    the absent value, as it does when SOUR or NAME is missing. *)
Theorem getSoftware_not_empty (head : option GedcomEntry) :
  getSoftware head ≠ Some "" ∧
  (∀ s, getSoftware head = Some s ↔
        ∃ h sour name,
          head = Some h ∧
          js_find (λ e, String.eqb (tag e) "SOUR") (tree h) = Some sour ∧
          js_find (λ e, String.eqb (tag e) "NAME") (tree sour) = Some name ∧
          data name = Some s ∧ s ≠ "") ∧
  (∀ h sour name,
      head = Some h →
      js_find (λ e, String.eqb (tag e) "SOUR") (tree h) = Some sour →
      js_find (λ e, String.eqb (tag e) "NAME") (tree sour) = Some name →
      data name = Some "" ∨ data name = None →
      getSoftware head = None) ∧
  (∀ h, head = Some h →
        js_find (λ e, String.eqb (tag e) "SOUR") (tree h) = None →
        getSoftware head = None) ∧
  (∀ h sour,
      head = Some h →
      js_find (λ e, String.eqb (tag e) "SOUR") (tree h) = Some sour →
      js_find (λ e, String.eqb (tag e) "NAME") (tree sour) = None →
      getSoftware head = None).
Proof.
  assert (∀ s, getSoftware head = Some s ↔
        ∃ h sour name,
          head = Some h ∧
          js_find (λ e, String.eqb (tag e) "SOUR") (tree h) = Some sour ∧
          js_find (λ e, String.eqb (tag e) "NAME") (tree sour) = Some name ∧
          data name = Some s ∧ s ≠ "") as Hiff.
  { intros s. unfold getSoftware. split.
    - destruct head as [h|]; [|done].
      destruct (js_find _ (tree h)) as [sour|] eqn:Hs; [|done].
      destruct (js_find _ (tree sour)) as [name|] eqn:Hn; [|done].
      destruct (data name) as [d|] eqn:Hd; [|done].
      destruct (truthy_string d) eqn:Ht; [|done].
      intros [= <-]. exists h, sour, name.
      split_and!; [done..|]. by apply truthy_string_spec.
    - intros (h & sour & name & -> & -> & -> & -> & Hne).
      apply truthy_string_spec in Hne. by rewrite Hne. }
  split_and!.
  - intros H. apply Hiff in H as (? & ? & ? & _ & _ & _ & _ & Hne). done.
  - exact Hiff.
  - intros h sour name -> Hs Hn Hd. unfold getSoftware. rewrite Hs, Hn.
    by destruct Hd as [-> | ->].
  - intros h -> Hs. unfold getSoftware. by rewrite Hs.
  - intros h sour -> Hs Hn. unfold getSoftware. by rewrite Hs, Hn.
Qed.

(** ** The comparator *)

Lemma string_compare_refl (s : string) : String.compare s s = Eq.
Proof.
  induction s as [|c s IH]; [done|]. cbn [String.compare].
  unfold Ascii.compare. by rewrite N.compare_refl.
Qed.

Lemma ltb_irrefl (s : string) : String.ltb s s = false.
Proof. unfold String.ltb. by rewrite string_compare_refl. Qed.

Lemma ltb_asym (a b : string) : String.ltb a b = true → String.ltb b a = false.
Proof.
  unfold String.ltb. rewrite (String.compare_antisym b a).
  by destruct (String.compare a b).
Qed.

Lemma strcmp_lt (a b : string) : String.ltb a b = true → strcmp a b = -1.
Proof. unfold strcmp. by intros ->. Qed.

Lemma strcmp_gt (a b : string) : String.ltb b a = true → strcmp a b = 1.
Proof. unfold strcmp. intros H. by rewrite (ltb_asym _ _ H), H. Qed.

Lemma strcmp_refl (a : string) : strcmp a a = 0.
Proof. unfold strcmp. by rewrite ltb_irrefl. Qed.

Lemma strcmp_zero (a b : string) : strcmp a b = 0 ↔ a = b.
Proof.
  split; [|intros ->; apply strcmp_refl].
  unfold strcmp, String.ltb. rewrite (String.compare_antisym b a).
  destruct (String.compare a b) eqn:H; cbn; [|done..].
  intros _. by apply String.compare_eq_iff.
Qed.

(** [idToIndiMap] holds, under each id, the last individual of the sequence
    with that id. *)
Lemma idToIndiMap_lookup (g : JsonGedcomData) (k : string) :
  idToIndiMap g !! k = last (filter (λ i, indi_id i = k) (indis g)).
Proof.
  unfold idToIndiMap.
  enough (∀ l (m : gmap string JsonIndi),
            fold_left (λ m indi, <[indi_id indi := indi]> m) l m !! k
                 = last_or (filter (λ i, indi_id i = k) l) (m !! k)) as H.
  { rewrite H. unfold last_or. rewrite lookup_empty. by destruct (last _). }
  induction l as [|i l IH] using rev_ind; intros m; [done|].
  rewrite fold_left_app. cbn [fold_left].
  destruct (decide (indi_id i = k)) as [Hk|Hk].
  - rewrite (last_or_snoc_True (λ i, indi_id i = k)) by done.
    subst k. by rewrite lookup_insert_eq.
  - rewrite (last_or_snoc_False (λ i, indi_id i = k)) by done.
    rewrite lookup_insert_ne by done. apply IH.
Qed.

Lemma unresolved_lookup (g : JsonGedcomData) (id : string) :
  unresolved g id → indi_of g id = None.
Proof.
  intros Hu. unfold indi_of. rewrite idToIndiMap_lookup.
  apply last_None. unfold unresolved in Hu. revert Hu.
  generalize (indis g). intros l. induction l as [|i l IH]; intros Hu; [done|].
  rewrite filter_cons_False by (apply Hu, list_elem_of_here).
  apply IH. intros j Hj. apply Hu. by apply list_elem_of_further.
Qed.

(** The comparator falls back on the ids as soon as one side has no date or
    no truthy year. *)
Lemma comparator_no_year_l (g : JsonGedcomData) (id1 id2 : string) :
  match birth_date_of g id1 with
  | Some d => truthy_val (year d) = None
  | None => True
  end →
  birthDatesComparator g id1 id2 = strcmp id1 id2.
Proof.
  unfold birthDatesComparator, birth_date_of, indi_of.
  destruct (resolved_date (idToIndiMap g !! id1)) as [d1|]; [|done].
  intros ->. by destruct (resolved_date _).
Qed.

Lemma comparator_no_year_r (g : JsonGedcomData) (id1 id2 : string) :
  match birth_date_of g id2 with
  | Some d => truthy_val (year d) = None
  | None => True
  end →
  birthDatesComparator g id1 id2 = strcmp id1 id2.
Proof.
  unfold birthDatesComparator, birth_date_of, indi_of.
  destruct (resolved_date (idToIndiMap g !! id1)) as [d1|]; [|done].
  destruct (resolved_date (idToIndiMap g !! id2)) as [d2|]; [|done].
  intros ->. by destruct (truthy_val (year d1)).
Qed.

Lemma unusable_no_year (g : JsonGedcomData) (id : string) :
  unresolved g id ∨ no_usable_date g id ∨ lacks_year g id →
  match birth_date_of g id with
  | Some d => truthy_val (year d) = None
  | None => True
  end.
Proof.
  unfold birth_date_of. intros [Hu | [(i & Hi & Hd) | (d & Hd & Hy)]].
  - by rewrite (unresolved_lookup _ _ Hu).
  - by rewrite Hi, Hd.
  - unfold birth_date_of in Hd. by rewrite Hd, Hy.
Qed.

(** C6. When either id does not resolve to an individual, or resolves to an
    individual without a usable birth date, or to a date without a year,
    the comparator returns the ordinal comparison of the two ids: -1 when
    the first is less, 1 when it is greater, 0 when they are equal. *)
Theorem comparator_fallback (g : JsonGedcomData) (id1 id2 : string) :
  (unresolved g id1 ∨ no_usable_date g id1 ∨ lacks_year g id1) ∨
  (unresolved g id2 ∨ no_usable_date g id2 ∨ lacks_year g id2) →
  birthDatesComparator g id1 id2 = strcmp id1 id2 ∧
  (String.ltb id1 id2 = true → birthDatesComparator g id1 id2 = -1) ∧
  (String.ltb id2 id1 = true → birthDatesComparator g id1 id2 = 1) ∧
  (id1 = id2 → birthDatesComparator g id1 id2 = 0).
Proof.
  intros H.
  assert (birthDatesComparator g id1 id2 = strcmp id1 id2) as ->.
  { destruct H as [H|H]; apply unusable_no_year in H.
    - by apply comparator_no_year_l.
    - by apply comparator_no_year_r. }
  split_and!; [done|apply strcmp_lt|apply strcmp_gt|].
  intros ->. apply strcmp_refl.
Qed.

Lemma comparator_fallback_witness :
  ((unresolved ex_chart_plain "I1" ∨ no_usable_date ex_chart_plain "I1" ∨
    lacks_year ex_chart_plain "I1") ∨
   (unresolved ex_chart_plain "I2" ∨ no_usable_date ex_chart_plain "I2" ∨
    lacks_year ex_chart_plain "I2")) ∧
  (birthDatesComparator ex_chart_plain "I1" "I2" = strcmp "I1" "I2" ∧
   (String.ltb "I1" "I2" = true →
    birthDatesComparator ex_chart_plain "I1" "I2" = -1) ∧
   (String.ltb "I2" "I1" = true →
    birthDatesComparator ex_chart_plain "I1" "I2" = 1) ∧
   ("I1" = "I2" → birthDatesComparator ex_chart_plain "I1" "I2" = 0)).
Proof.
  assert (no_usable_date ex_chart_plain "I1") as H.
  { exists (mkIndi "I1" None None). split; reflexivity. }
  split; [left; right; left; exact H|].
  apply (comparator_fallback ex_chart_plain "I1" "I2").
  left; right; left; exact H.
Defined.

Example comparator_fallback_I1_I2 :
  birthDatesComparator ex_chart_plain "I1" "I2" = -1.
Proof. reflexivity. Qed.

(** C10. The comparator is reflexive: an id compared with itself gives 0. *)
Theorem comparator_refl (g : JsonGedcomData) (id : string) :
  birthDatesComparator g id id = 0.
Proof.
  unfold birthDatesComparator. rewrite strcmp_refl.
  destruct (resolved_date (idToIndiMap g !! id)) as [d|]; [|done].
  destruct (truthy_val (year d)) as [y|]; [|done].
  rewrite Z.eqb_refl. cbn [negb].
  destruct (truthy_val (month d)) as [m|]; [|done].
  rewrite Z.eqb_refl. cbn [negb].
  destruct (truthy_val (day d)) as [a|]; [|done].
  by rewrite Z.eqb_refl.
Qed.

(** C3 (amended).  When the birth dates of both ids carry a year, a month
    and a day that are not 0, with equal years, equal months and differing
    days, the comparator returns 0: the month difference is returned in
    place of the day difference. *)
Theorem comparator_day_quirk (g : JsonGedcomData) (id1 id2 : string)
  (d1 d2 : JsonDate) (y m a1 a2 : Z) :
  birth_date_of g id1 = Some d1 → birth_date_of g id2 = Some d2 →
  year d1 = Some y → year d2 = Some y → y ≠ 0 →
  month d1 = Some m → month d2 = Some m → m ≠ 0 →
  day d1 = Some a1 → day d2 = Some a2 → a1 ≠ 0 → a2 ≠ 0 → a1 ≠ a2 →
  birthDatesComparator g id1 id2 = m - m ∧
  birthDatesComparator g id1 id2 = 0.
Proof.
  unfold birth_date_of, indi_of, birthDatesComparator.
  intros -> -> -> -> Hy -> -> Hm -> -> H1 H2 Hne.
  unfold truthy_val, truthy_num.
  apply Z.eqb_neq in Hy, Hm, H1, H2, Hne.
  rewrite Hy, Hm, H1, H2. cbn [negb].
  rewrite !Z.eqb_refl, Hne. cbn [negb]. lia.
Qed.

Lemma comparator_day_quirk_witness :
  birthDatesComparator ex_chart_days "I1" "I2" = 5 - 5 ∧
  birthDatesComparator ex_chart_days "I1" "I2" = 0.
Proof.
  apply (comparator_day_quirk ex_chart_days "I1" "I2"
           (mkDate (Some 1900) (Some 5) (Some 1))
           (mkDate (Some 1900) (Some 5) (Some 2)) 1900 5 1 2);
    first [reflexivity | lia].
Defined.

(** C3 as stated fails when a field is present but is the number 0, which
    the guards [!date.year], [!date.month] and [date.day && ...] treat as
    absent: the ids are compared instead. *)
Lemma comparator_day_quirk_zero_field :
  ¬ (∀ (g : JsonGedcomData) (id1 id2 : string) (d1 d2 : JsonDate)
       (y m a1 a2 : Z),
        birth_date_of g id1 = Some d1 → birth_date_of g id2 = Some d2 →
        year d1 = Some y → year d2 = Some y →
        month d1 = Some m → month d2 = Some m →
        day d1 = Some a1 → day d2 = Some a2 → a1 ≠ a2 →
        birthDatesComparator g id1 id2 = 0).
Proof.
  intros H.
  specialize (H ex_chart_year0 "I1" "I2"
                (mkDate (Some 0) (Some 5) (Some 1))
                (mkDate (Some 0) (Some 5) (Some 2)) 0 5 1 2).
  assert (birthDatesComparator ex_chart_year0 "I1" "I2" = -1) as E
    by reflexivity.
  rewrite E in H. discriminate H; first [reflexivity | lia].
Qed.

Example comparator_year0 : birthDatesComparator ex_chart_year0 "I1" "I2" = -1.
Proof. reflexivity. Qed.

Example comparator_month0 : birthDatesComparator ex_chart_month0 "I1" "I2" = -1.
Proof. reflexivity. Qed.

Example comparator_day0 : birthDatesComparator ex_chart_day0 "I1" "I2" = -1.
Proof. reflexivity. Qed.

(** ** Sorting *)

(** The sort of the model rearranges, and on a comparator that relates any
    two elements one way or the other it sorts. *)
Lemma sort_insert_perm {A : Type} (cmp : A → A → Z) (x : A) (l : list A) :
  sort_insert cmp x l ≡ₚ x :: l.
Proof.
  induction l as [|y l IH]; [done|]. cbn [sort_insert].
  destruct (cmp x y <=? 0); [done|]. rewrite IH. apply Permutation_swap.
Qed.

Lemma js_sort_perm {A : Type} (cmp : A → A → Z) (l : list A) :
  js_sort cmp l ≡ₚ l.
Proof.
  induction l as [|x l IH]; [done|]. cbn [js_sort].
  by rewrite sort_insert_perm, IH.
Qed.

Lemma sort_insert_sorted {A : Type} (cmp : A → A → Z) (x : A) (l : list A) :
  (∀ a b, cmp a b <= 0 ∨ cmp b a <= 0) →
  sorted_by cmp l → sorted_by cmp (sort_insert cmp x l).
Proof.
  intros Htot. unfold sorted_by.
  induction l as [|y l IH]; intros Hs; cbn [sort_insert].
  - by repeat constructor.
  - destruct (Z.leb_spec (cmp x y) 0) as [Hle|Hgt].
    + constructor; [done|]. by constructor.
    + inversion Hs as [|? ? Hs' Hhd]; subst.
      constructor; [by apply IH|].
      destruct l as [|z l]; cbn [sort_insert].
      * constructor. destruct (Htot x y); lia.
      * destruct (cmp x z <=? 0).
        -- constructor. destruct (Htot x y); lia.
        -- constructor. by inversion Hhd.
Qed.

Lemma js_sort_sorted {A : Type} (cmp : A → A → Z) (l : list A) :
  (∀ a b, cmp a b <= 0 ∨ cmp b a <= 0) → sorted_by cmp (js_sort cmp l).
Proof.
  intros Htot. induction l as [|x l IH]; cbn [js_sort].
  - constructor.
  - by apply sort_insert_sorted.
Qed.

(** A sorted sequence is a fixed point of the sort. *)
Lemma js_sort_sorted_id {A : Type} (cmp : A → A → Z) (l : list A) :
  sorted_by cmp l → js_sort cmp l = l.
Proof.
  unfold sorted_by. induction l as [|x l IH]; intros Hs; [done|].
  inversion Hs as [|? ? Hs' Hhd]; subst. cbn [js_sort]. rewrite IH by done.
  destruct Hhd as [|y l Hxy]; [done|]. cbn [sort_insert].
  by destruct (Z.leb_spec (cmp x y) 0); [|lia].
Qed.

(** What [sortFamilyChildren] does to a family with children: the new
    family refers to the array of the input family, and that array has been
    sorted where it stands. *)
Lemma sortFamilyChildren_in_place (fam : JsonFam)
  (comparator : string → string → Z) (h : Heap) (l : loc) :
  children fam = Some l →
  children (sortFamilyChildren fam comparator h).1 = Some l ∧
  (sortFamilyChildren fam comparator h).2 !! l
  = js_sort comparator <$> (h !! l).
Proof.
  intros Hl. unfold sortFamilyChildren. rewrite Hl. cbn.
  split; [done|]. by rewrite lookup_alter_eq.
Qed.

(** C1 (failing input).  [sortFamilyChildren] does not allocate a new
    sequence and does not leave the children of its input in their order:
    on the family whose children array holds "I2", "I1", the returned family
    refers to the very array of the input (location 0), and that array,
    which held "I2", "I1" before the call, holds "I1", "I2" after it. *)
Theorem sortFamilyChildren_mutates_input :
  let comparator := birthDatesComparator ex_chart_plain in
  let result := sortFamilyChildren ex_fam comparator ex_heap_unsorted in
  children result.1 = children ex_fam ∧
  ex_heap_unsorted !! 0%nat = Some ["I2"; "I1"] ∧
  result.2 !! 0%nat = Some ["I1"; "I2"].
Proof. vm_compute. done. Qed.

Lemma sortChildren_unfold (g : JsonGedcomData) (h : Heap) :
  sortChildren g h
  = let r := map_heap (λ fam, sortFamilyChildren fam (birthDatesComparator g))
                      (fams g) h in
    (mkJson (indis g) r.1, r.2).
Proof. unfold sortChildren. by destruct (map_heap _ (fams g) h). Qed.

(** C8. [sortChildren] rebuilds the families only: the individuals of its
    result are the individuals of its input. *)
Theorem sortChildren_indis (g : JsonGedcomData) (h : Heap) :
  indis (sortChildren g h).1 = indis g.
Proof. by rewrite sortChildren_unfold. Qed.

(** ** Images *)

Lemma split_path_not_nil (s : string) : split_path s ≠ [].
Proof.
  induction s as [|c s IH]; [done|]. cbn [split_path].
  destruct (is_sep c); [done|]. by destruct (split_path s).
Qed.

Lemma split_path_no_sep (s : string) : no_sep s = true → split_path s = [s].
Proof.
  induction s as [|c s IH]; [done|]. cbn [no_sep split_path].
  intros [Hc Hs]%andb_true_iff. apply negb_true_iff in Hc.
  by rewrite Hc, IH.
Qed.

Lemma split_path_sep (s : string) :
  no_sep s = false → ∃ seg seg' rest, split_path s = seg :: seg' :: rest.
Proof.
  induction s as [|c s IH]; [done|]. cbn [no_sep split_path].
  destruct (is_sep c) eqn:Hc; cbn [negb andb].
  - intros _. pose proof (split_path_not_nil s).
    destruct (split_path s) as [|seg rest]; [done|]. by eauto.
  - intros Hs. destruct (IH Hs) as (seg & seg' & rest & ->). by eauto.
Qed.

(** The match of the regular expression is the last path segment. *)
Lemma match_fileName_last_segment (s : string) :
  match_fileName s = last_segment s.
Proof.
  unfold last_segment. induction s as [|c s IH]; [done|].
  cbn [match_fileName]. destruct (no_sep (String c s)) eqn:Hn.
  - by rewrite (split_path_no_sep _ Hn).
  - rewrite IH. cbn [split_path no_sep] in *.
    destruct (is_sep c) eqn:Hc.
    + pose proof (split_path_not_nil s).
      by destruct (split_path s).
    + cbn [negb andb] in Hn.
      by destruct (split_path_sep s Hn) as (seg & seg' & rest & ->).
Qed.

Lemma append_String (c : ascii) (a b : string) :
  String c a +:+ b = String c (a +:+ b).
Proof. reflexivity. Qed.

Lemma append_empty (b : string) : EmptyString +:+ b = b.
Proof. reflexivity. Qed.

Lemma js_startsWith_spec (s p : string) :
  js_startsWith s p = true ↔ ∃ rest, s = p +:+ rest.
Proof.
  unfold js_startsWith. revert s.
  induction p as [|c p IH]; intros s.
  - split; [|by destruct s]. intros _. by exists s.
  - destruct s as [|c' s]; cbn [String.prefix].
    + split; [done|]. by intros [? ?].
    + destruct (Ascii.ascii_dec c c') as [->|Hne].
      * rewrite IH. split; intros [rest Hr]; exists rest;
          rewrite append_String in *; congruence.
      * split; [done|]. intros [rest Hr].
        rewrite append_String in Hr. congruence.
Qed.

Lemma substring_0_length (s : string) :
  String.substring 0 (String.length s) s = s.
Proof. induction s as [|c s IH]; [done|]. cbn. by rewrite IH. Qed.

Lemma substring_skip (a b : string) :
  String.substring (String.length a) (String.length b) (a +:+ b) = b.
Proof.
  induction a as [|c a IH].
  - rewrite append_empty. apply substring_0_length.
  - rewrite append_String. cbn. apply IH.
Qed.

Lemma substring_split (s : string) (k : nat) :
  (k ≤ String.length s)%nat →
  s = String.substring 0 k s +:+ String.substring k (String.length s - k) s.
Proof.
  revert k. induction s as [|c s IH]; intros k Hk.
  - by destruct k.
  - destruct k as [|k]; cbn [String.substring String.length Nat.sub].
    + rewrite append_empty. by rewrite substring_0_length.
    + cbn in Hk. rewrite append_String. f_equal. apply IH. lia.
Qed.

Lemma append_length (a b : string) :
  String.length (a +:+ b) = (String.length a + String.length b)%nat.
Proof.
  induction a as [|c a IH]; [done|].
  rewrite append_String. cbn. by rewrite IH.
Qed.

Lemma js_endsWith_spec (s p : string) :
  js_endsWith s p = true ↔ ∃ stem, s = stem +:+ p.
Proof.
  unfold js_endsWith. rewrite andb_true_iff, Nat.leb_le, String.eqb_eq.
  split.
  - intros [Hle Heq].
    exists (String.substring 0 (String.length s - String.length p) s).
    pose proof (substring_split s (String.length s - String.length p)) as H.
    replace (String.length s - (String.length s - String.length p))%nat
      with (String.length p) in H by lia.
    rewrite Heq in H. apply H. lia.
  - intros [stem ->]. rewrite append_length. split; [lia|].
    replace (String.length stem + String.length p - String.length p)%nat
      with (String.length stem) by lia.
    apply substring_skip.
Qed.

Lemma isImageFile_spec (u : string) :
  isImageFile u = true ↔ has_image_extension u.
Proof.
  unfold isImageFile, has_image_extension, IMAGE_EXTENSIONS.
  rewrite existsb_exists. split.
  - intros (ext & Hin & Hends). apply js_endsWith_spec in Hends as [stem ?].
    exists stem, ext. split; [by apply list_elem_of_In|done].
  - intros (stem & ext & Hin & Heq). exists ext.
    split; [by apply list_elem_of_In|]. apply js_endsWith_spec. by exists stem.
Qed.

Lemma accepted_link_spec (u : string) :
  js_startsWith u "http" && isImageFile u = true ↔
  starts_with_http u ∧ has_image_extension u.
Proof.
  rewrite andb_true_iff, js_startsWith_spec, isImageFile_spec. done.
Qed.

(** The loop of [filterImage], started from any accumulator, appends the
    filtered sequence to it. *)
Lemma fold_filter_step (images : gmap string string)
  (imgs acc : list JsonImage) :
  ∃ out, fold_left (filter_step images) imgs acc = acc ++ out ∧
         filtered images imgs out.
Proof.
  revert acc. induction imgs as [|img imgs IH]; intros acc; cbn [fold_left].
  - exists []. split; [by rewrite app_nil_r | constructor].
  - unfold filter_step at 2. rewrite match_fileName_last_segment.
    destruct (images !! last_segment (url img)) as [mapped|] eqn:Hm.
    + destruct (IH (acc ++ [mkImage mapped (title img)])) as (out & -> & Hf).
      exists (mkImage mapped (title img) :: out).
      split; [by rewrite <- app_assoc | by constructor].
    + destruct (js_startsWith (url img) "http" && isImageFile (url img))
        eqn:Hacc.
      * apply accepted_link_spec in Hacc.
        destruct (IH (acc ++ [img])) as (out & -> & Hf).
        exists (img :: out).
        split; [by rewrite <- app_assoc | by constructor].
      * destruct (IH acc) as (out & -> & Hf). exists out.
        split; [done|]. apply filtered_drop; [done| |done].
        intros Hacc'. apply accepted_link_spec in Hacc'. congruence.
Qed.

(** The relation determines the filtered sequence. *)
Lemma filtered_functional (images : gmap string string)
  (imgs out1 out2 : list JsonImage) :
  filtered images imgs out1 → filtered images imgs out2 → out1 = out2.
Proof.
  intros H1. revert out2.
  induction H1 as [|img mapped rest out Hm _ IH|img rest out Hm Hl _ IH
                  |img rest out Hm Hl _ IH];
    intros out2 H2; inversion H2; subst; try congruence; try tauto.
  - f_equal; [congruence|]. by apply IH.
  - f_equal. by apply IH.
  - by apply IH.
Qed.

(** C5. For an individual with a non-empty sequence of images,
    [filterImage] returns the individual with the filtered sequence: an
    image whose file name (the last path segment of its url) is a key of the
    mapping is kept with the mapped url and its title; any other image is
    kept unchanged exactly when its url starts with 'http' and its
    lower-cased url ends with '.jpg', '.png' or '.gif'; the rest is
    dropped, and the kept images stay in their original order. *)
Theorem filterImage_filtered (indi : JsonIndi) (images : gmap string string)
  (imgs : list JsonImage) :
  indi_images indi = Some imgs → imgs ≠ [] →
  ∃ out, filterImage indi images = mkIndi (indi_id indi) (birth indi) (Some out) ∧
         filtered images imgs out.
Proof.
  intros Himgs Hne. unfold filterImage. rewrite Himgs.
  destruct imgs as [|img imgs]; [done|].
  destruct (fold_filter_step images (img :: imgs) []) as (out & Hout & Hf).
  exists out. split; [|done]. by rewrite Hout.
Qed.

Lemma filterImage_filtered_witness :
  ∃ out, filterImage ex_indi ex_overrides
         = mkIndi (indi_id ex_indi) (birth ex_indi) (Some out) ∧
         filtered ex_overrides ex_images out.
Proof.
  apply (filterImage_filtered ex_indi ex_overrides ex_images).
  - reflexivity.
  - discriminate.
Defined.

Example filterImage_example :
  indi_images (filterImage ex_indi ex_overrides)
  = Some [ mkImage "http://example.com/a.jpg" (Some "a");
           mkImage "blob:1234" (Some "photo");
           mkImage "https://example.com/a.PNG" None ].
Proof. vm_compute. reflexivity. Qed.

(** ** The conversion *)

Lemma checked_None (json : option RawJson) :
  checked json = None ↔ no_individuals json ∨ no_families json.
Proof.
  unfold checked, no_individuals, no_families.
  destruct json as [[[inds|] [fs|]]|]; cbn [raw_indis raw_fams];
    try destruct inds; try destruct fs; cbn;
    split; try done; try tauto;
    intros [[H|H]|[H|H]]; discriminate H.
Qed.

Lemma checked_Some (json : option RawJson) (g : JsonGedcomData) :
  checked json = Some g ↔
  ∃ j, json = Some j ∧ raw_indis j = Some (indis g) ∧
       raw_fams j = Some (fams g) ∧ indis g ≠ [] ∧ fams g ≠ [].
Proof.
  unfold checked. split.
  - destruct json as [[[inds|] [fs|]]|]; cbn [raw_indis raw_fams];
      try destruct inds; try destruct fs; cbn; try done.
    intros [= <-]. eexists. by split_and!.
  - intros ([ri rf] & -> & Hi & Hf & Hin & Hfn). cbn in *. subst.
    destruct g as [[|i inds] [|f fs]]; cbn in *; done.
Qed.

Lemma map_heap_length {A B : Type} (f : A → Heap → B * Heap) (l : list A)
  (h : Heap) :
  length (map_heap f l h).1 = length l.
Proof.
  revert h. induction l as [|x l IH]; intros h; [done|]. cbn [map_heap].
  destruct (f x h) as [y h1]. specialize (IH h1).
  destruct (map_heap f l h1) as [ys h2]. cbn in *. by rewrite IH.
Qed.

(** What [convertGedcom] does once the parser and the converter have
    returned: it throws the error of its guard exactly when a sequence is
    missing or empty, it throws the [TypeError] exactly when the guard is
    passed and [idToIndiMap] cannot be filled, it throws nothing else, and
    in the remaining case it returns the complete result. *)
Lemma convertGedcom_outcomes {Upstream : Type}
  (parseGedcom : string → Upstream + list GedcomEntry)
  (gedcomEntriesToJson : list GedcomEntry → Upstream + (option RawJson * Heap))
  (text : string) (images : gmap string string) (entries : list GedcomEntry)
  (json : option RawJson) (h : Heap) :
  parseGedcom text = inr entries →
  gedcomEntriesToJson entries = inr (json, h) →
  (convertGedcom Upstream parseGedcom gedcomEntriesToJson text images
   = inl (Error "Failed to read GEDCOM file")
   ↔ no_individuals json ∨ no_families json) ∧
  (convertGedcom Upstream parseGedcom gedcomEntriesToJson text images
   = inl TypeError
   ↔ ∃ g, checked json = Some g ∧ idToIndiMap_throws g = true) ∧
  (∀ e, convertGedcom Upstream parseGedcom gedcomEntriesToJson text images
        = inl e → e = Error "Failed to read GEDCOM file" ∨ e = TypeError) ∧
  (∀ g, checked json = Some g → idToIndiMap_throws g = false →
     convertGedcom Upstream parseGedcom gedcomEntriesToJson text images
     = inr (mkTopolaData (filterImages (sortChildren g h).1 images)
                         (prepareGedcom entries), (sortChildren g h).2) ∧
     length (indis (filterImages (sortChildren g h).1 images))
     = length (indis g) ∧
     length (fams (filterImages (sortChildren g h).1 images))
     = length (fams g) ∧
     indis g ≠ [] ∧ fams g ≠ []).
Proof.
  intros Hp Hc. unfold convertGedcom. rewrite Hp, Hc.
  destruct (checked json) as [g|] eqn:Hg.
  - assert (¬ (no_individuals json ∨ no_families json)) as Hvalid.
    { intros Hno. apply checked_None in Hno. congruence. }
    destruct (idToIndiMap_throws g) eqn:Ht.
    + split_and!.
      * split; [done|]. intros Hno. by destruct Hvalid.
      * split; [|done]. intros _. by exists g.
      * intros e [= <-]. by right.
      * intros g' [= <-]. congruence.
    + rewrite sortChildren_unfold. cbn zeta. cbn [fst snd].
      split_and!.
      * split; [done|]. intros Hno. by destruct Hvalid.
      * split; [done|]. intros (g' & [= <-] & Ht'). congruence.
      * intros e [=].
      * intros g' [= <-] _. rewrite sortChildren_unfold. cbn zeta.
        cbn [fst snd].
        apply checked_Some in Hg as (j & -> & Hi & Hf & Hin & Hfn).
        split_and!; [done| | |done..].
        -- unfold filterImages. cbn [indis]. by rewrite length_map.
        -- unfold filterImages. cbn [fams]. apply map_heap_length.
  - split_and!.
    + split; [|done]. intros _. by apply checked_None.
    + split; [done|]. by intros (g & [=] & _).
    + intros e [= <-]. by left.
    + by intros g [=].
Qed.

(** C2 (failing input).  The converter has returned an individual whose id
    is 'size' and one family, so neither sequence is missing or empty; yet
    [convertGedcom] neither returns a result nor throws the error of its
    guard: the assignment [idToIndiMap['size'] = indi] throws a
    [TypeError]. *)
Theorem convertGedcom_size_throws :
  let json := Some (mkRawJson (Some [mkIndi "size" None None])
                              (Some [ex_fam])) in
  ex_parse_size "0 @size@ INDI" = inr ex_entries_size ∧
  ex_convert_size ex_entries_size = inr (json, ex_heap_size) ∧
  ¬ (no_individuals json ∨ no_families json) ∧
  convertGedcom Empty_set ex_parse_size ex_convert_size "0 @size@ INDI" ∅
  = inl TypeError.
Proof.
  cbn zeta. split_and!; [reflexivity..| |reflexivity].
  intros [[H|H]|[H|H]]; discriminate H.
Qed.

(** * Further properties of the code *)

(** ** Pointers *)

Lemma substring_0_app (a b : string) :
  String.substring 0 (String.length a) (a +:+ b) = a.
Proof.
  induction a as [|c a IH]; [by destruct b|].
  rewrite append_String. cbn. by rewrite IH.
Qed.

(** X1. On a pointer with a first and a last character around a body,
    [pointerToId] returns the body: '@I123@' gives 'I123', whatever the two
    delimiters are. *)
Theorem pointerToId_strips (c d : ascii) (body : string) :
  pointerToId (String c (body +:+ String d EmptyString)) = body.
Proof.
  unfold pointerToId, js_substring.
  set (s := String c (body +:+ String d EmptyString)).
  assert (String.length s = S (String.length body + 1)) as Hlen.
  { unfold s. cbn [String.length]. by rewrite append_length. }
  rewrite Hlen.
  replace (Z.min (Z.max 1 0) (Z.of_nat (S (String.length body + 1)))) with 1
    by lia.
  replace (Z.min (Z.max (Z.of_nat (S (String.length body + 1)) - 1) 0)
                 (Z.of_nat (S (String.length body + 1))))
    with (Z.of_nat (String.length body) + 1) by lia.
  replace (Z.to_nat (Z.min 1 (Z.of_nat (String.length body) + 1))) with 1%nat
    by lia.
  replace (Z.to_nat (Z.max 1 (Z.of_nat (String.length body) + 1)
                     - Z.min 1 (Z.of_nat (String.length body) + 1)))
    with (String.length body) by lia.
  unfold s. cbn [String.substring]. apply substring_0_app.
Qed.

(** X2. A pointer of fewer than two characters is returned as it is: the
    empty pointer gives the empty identifier and a one-character pointer
    keeps its character, because [substring(1, 0)] swaps its bounds. *)
Theorem pointerToId_short (pointer : string) :
  (String.length pointer < 2)%nat → pointerToId pointer = pointer.
Proof.
  destruct pointer as [|c [|d s]]; cbn [String.length]; intros H.
  - reflexivity.
  - reflexivity.
  - lia.
Qed.

Lemma pointerToId_short_witness :
  (String.length "@" < 2)%nat ∧ pointerToId "@" = "@".
Proof.
  assert (String.length "@" < 2)%nat as H by (cbn; lia).
  split; [exact H|]. apply (pointerToId_short "@" H).
Defined.

(** ** Ordering of identifiers and individuals *)

Lemma strcmp_le (a b : string) : strcmp a b <= 0 ↔ String.le a b.
Proof.
  unfold strcmp, String.le, String.leb, String.ltb.
  rewrite (String.compare_antisym b a).
  destruct (String.compare a b); cbn; split; intros H; try done; lia.
Qed.

Lemma strcmp_antisym (a b : string) : strcmp b a = - strcmp a b.
Proof.
  unfold strcmp, String.ltb. rewrite (String.compare_antisym b a).
  by destruct (String.compare a b).
Qed.

Lemma strcmp_connex : connex strcmp.
Proof.
  intros a b. rewrite !strcmp_le. apply (total String.le).
Qed.

Lemma strcmp_transitive : transitive strcmp.
Proof.
  intros a b c. rewrite !strcmp_le. apply transitivity.
Qed.

(** X3. [strcmp] is the comparator of a total order on strings: it returns
    -1, 0 or 1, returns 0 only on equal strings, changes sign when its
    arguments are swapped, and is transitive. *)
Theorem strcmp_total_order (a b c : string) :
  (strcmp a b = -1 ∨ strcmp a b = 0 ∨ strcmp a b = 1) ∧
  (strcmp a b = 0 ↔ a = b) ∧
  strcmp b a = - strcmp a b ∧
  (strcmp a b <= 0 → strcmp b c <= 0 → strcmp a c <= 0).
Proof.
  split_and!.
  - unfold strcmp. destruct (String.ltb a b); [by left|].
    destruct (String.ltb b a); [by right; right | by right; left].
  - apply strcmp_zero.
  - apply strcmp_antisym.
  - apply strcmp_transitive.
Qed.

(** X4. The birth date comparator is antisymmetric: swapping the two ids
    negates the result.  In particular any two ids are related one way or
    the other. *)
Theorem comparator_antisym (g : JsonGedcomData) (id1 id2 : string) :
  birthDatesComparator g id2 id1 = - birthDatesComparator g id1 id2.
Proof.
  unfold birthDatesComparator. rewrite (strcmp_antisym id1 id2).
  destruct (resolved_date (idToIndiMap g !! id1)) as [d1|],
           (resolved_date (idToIndiMap g !! id2)) as [d2|]; try done.
  destruct (truthy_val (year d1)) as [y1|], (truthy_val (year d2)) as [y2|];
    try done.
  rewrite (Z.eqb_sym y2 y1). destruct (Z.eqb_spec y1 y2); cbn [negb]; [|lia].
  destruct (truthy_val (month d1)) as [m1|], (truthy_val (month d2)) as [m2|];
    try done.
  rewrite (Z.eqb_sym m2 m1). destruct (Z.eqb_spec m1 m2); cbn [negb]; [|lia].
  destruct (truthy_val (day d1)) as [a1|], (truthy_val (day d2)) as [a2|];
    try done.
  rewrite (Z.eqb_sym a2 a1). destruct (Z.eqb_spec a1 a2); cbn [negb]; [done|].
  lia.
Qed.

Lemma truthy_val_Some (o : option Z) (n : Z) :
  o = Some n → n ≠ 0 → truthy_val o = Some n.
Proof.
  intros -> Hn. unfold truthy_val, truthy_num.
  apply Z.eqb_neq in Hn. by rewrite Hn.
Qed.

(** X5. Individuals whose birth dates carry different years (not 0) are
    ordered by year, whatever their months, days and ids: the comparator
    returns the difference of the years. *)
Theorem comparator_by_year (g : JsonGedcomData) (id1 id2 : string)
  (d1 d2 : JsonDate) (y1 y2 : Z) :
  birth_date_of g id1 = Some d1 → birth_date_of g id2 = Some d2 →
  year d1 = Some y1 → year d2 = Some y2 → y1 ≠ 0 → y2 ≠ 0 → y1 ≠ y2 →
  birthDatesComparator g id1 id2 = y1 - y2.
Proof.
  unfold birth_date_of, indi_of, birthDatesComparator.
  intros -> -> Hy1 Hy2 H1 H2 Hne.
  rewrite (truthy_val_Some _ _ Hy1 H1), (truthy_val_Some _ _ Hy2 H2).
  apply Z.eqb_neq in Hne. by rewrite Hne.
Qed.

Lemma comparator_by_year_witness :
  birthDatesComparator ex_chart_years "I1" "I2" = 1901 - 1900.
Proof.
  apply (comparator_by_year ex_chart_years "I1" "I2"
           (mkDate (Some 1901) (Some 1) (Some 1))
           (mkDate (Some 1900) (Some 12) (Some 31)) 1901 1900);
    first [reflexivity | lia].
Defined.

(** X6. Individuals born in the same year whose birth dates carry different
    months (not 0) are ordered by month, whatever their days and ids. *)
Theorem comparator_by_month (g : JsonGedcomData) (id1 id2 : string)
  (d1 d2 : JsonDate) (y m1 m2 : Z) :
  birth_date_of g id1 = Some d1 → birth_date_of g id2 = Some d2 →
  year d1 = Some y → year d2 = Some y → y ≠ 0 →
  month d1 = Some m1 → month d2 = Some m2 → m1 ≠ 0 → m2 ≠ 0 → m1 ≠ m2 →
  birthDatesComparator g id1 id2 = m1 - m2.
Proof.
  unfold birth_date_of, indi_of, birthDatesComparator.
  intros -> -> Hy1 Hy2 Hy Hm1 Hm2 H1 H2 Hne.
  rewrite (truthy_val_Some _ _ Hy1 Hy), (truthy_val_Some _ _ Hy2 Hy).
  rewrite Z.eqb_refl. cbn [negb].
  rewrite (truthy_val_Some _ _ Hm1 H1), (truthy_val_Some _ _ Hm2 H2).
  apply Z.eqb_neq in Hne. by rewrite Hne.
Qed.

Lemma comparator_by_month_witness :
  birthDatesComparator ex_chart_months "I1" "I2" = 7 - 3.
Proof.
  apply (comparator_by_month ex_chart_months "I1" "I2"
           (mkDate (Some 1900) (Some 7) (Some 1))
           (mkDate (Some 1900) (Some 3) (Some 1)) 1900 7 3);
    first [reflexivity | lia].
Defined.

(** X7. Two ids that resolve to equal birth dates are ordered by id: the
    comparator returns [strcmp] of the ids. *)
Theorem comparator_same_date (g : JsonGedcomData) (id1 id2 : string)
  (d : JsonDate) :
  birth_date_of g id1 = Some d → birth_date_of g id2 = Some d →
  birthDatesComparator g id1 id2 = strcmp id1 id2.
Proof.
  unfold birth_date_of, indi_of, birthDatesComparator. intros -> ->.
  destruct (truthy_val (year d)) as [y|]; [|done].
  rewrite Z.eqb_refl. cbn [negb].
  destruct (truthy_val (month d)) as [m|]; [|done].
  rewrite Z.eqb_refl. cbn [negb].
  destruct (truthy_val (day d)) as [a|]; [|done].
  by rewrite Z.eqb_refl.
Qed.

Lemma comparator_same_date_witness :
  birthDatesComparator ex_chart_twins "I1" "I2" = strcmp "I1" "I2".
Proof.
  apply (comparator_same_date ex_chart_twins "I1" "I2"
           (mkDate (Some 1900) (Some 5) (Some 1))); reflexivity.
Defined.

(** ** More on the record index *)

Lemma prepareGedcom_lookup (entries : list GedcomEntry) (k : string) :
  gd_indis (prepareGedcom entries) !! k
  = (if decide (k = "__proto__") then None
     else last (filter (in_indis k) entries)) ∧
  gd_fams (prepareGedcom entries) !! k
  = (if decide (k = "__proto__") then None
     else last (filter (in_fams k) entries)) ∧
  gd_other (prepareGedcom entries) !! k
  = (if decide (k = "__proto__") then None
     else last (filter (in_other k) entries)).
Proof.
  unfold prepareGedcom. cbn [gd_indis gd_fams gd_other].
  destruct (decide (k = "__proto__")) as [->|Hk].
  - destruct (fold_index_entry_proto entries (mkIndices ∅ ∅ ∅))
      as (Hi & Hf & Ho). cbn zeta in *.
    rewrite Hi, Hf, Ho. cbn [ix_indis ix_fams ix_other].
    by rewrite !lookup_empty.
  - destruct (fold_index_entry_lookup entries (mkIndices ∅ ∅ ∅) k Hk)
      as (Hi & Hf & Ho). cbn zeta in *.
    rewrite Hi, Hf, Ho. unfold last_or. cbn [ix_indis ix_fams ix_other].
    rewrite !lookup_empty. by destruct (last _), (last _), (last _).
Qed.

Lemma last_filter_elem {A : Type} (P : A → Prop) `{!∀ x, Decision (P x)}
  (l : list A) (x : A) :
  last (filter P l) = Some x → x ∈ l ∧ P x.
Proof.
  intros Hl%last_Some_elem_of%list_elem_of_filter. tauto.
Qed.

Lemma last_filter_is_Some {A : Type} (P : A → Prop) `{!∀ x, Decision (P x)}
  (l : list A) (x : A) :
  x ∈ l → P x → is_Some (last (filter P l)).
Proof.
  intros Hx HP. apply last_is_Some. intros Hnil.
  assert (x ∈ filter P l) as Hin by (by apply list_elem_of_filter).
  rewrite Hnil in Hin. by apply elem_of_nil in Hin.
Qed.

(** X8. Every value of the record index is an entry of the input filed in
    the right dictionary under its own identifier: individuals holds only
    INDI entries, families only FAM entries, and other only entries that
    are neither and have a non-empty pointer. *)
Theorem prepareGedcom_sound (entries : list GedcomEntry) (k : string)
  (e : GedcomEntry) :
  (gd_indis (prepareGedcom entries) !! k = Some e →
   e ∈ entries ∧ tag e = "INDI" ∧ pointerToId (pointer e) = k) ∧
  (gd_fams (prepareGedcom entries) !! k = Some e →
   e ∈ entries ∧ tag e = "FAM" ∧ pointerToId (pointer e) = k) ∧
  (gd_other (prepareGedcom entries) !! k = Some e →
   e ∈ entries ∧ tag e ≠ "INDI" ∧ tag e ≠ "FAM" ∧ pointer e ≠ "" ∧
   pointerToId (pointer e) = k).
Proof.
  destruct (prepareGedcom_lookup entries k) as (-> & -> & ->).
  case_decide; [by split_and!|].
  split_and!; intros [Hin HP]%last_filter_elem.
  - by destruct HP.
  - by destruct HP.
  - by destruct HP as (? & ? & ? & ?).
Qed.

(** X9. No entry with an identifier other than '__proto__' is lost from
    the index: the identifier of every such INDI entry is a key of
    individuals, that of every such FAM entry a key of families, and that
    of every other such entry with a non-empty pointer a key of other. *)
Theorem prepareGedcom_complete (entries : list GedcomEntry)
  (e : GedcomEntry) :
  e ∈ entries → pointerToId (pointer e) ≠ "__proto__" →
  (tag e = "INDI" →
   is_Some (gd_indis (prepareGedcom entries) !! pointerToId (pointer e))) ∧
  (tag e = "FAM" →
   is_Some (gd_fams (prepareGedcom entries) !! pointerToId (pointer e))) ∧
  (tag e ≠ "INDI" → tag e ≠ "FAM" → pointer e ≠ "" →
   is_Some (gd_other (prepareGedcom entries) !! pointerToId (pointer e))).
Proof.
  intros Hin Hproto.
  destruct (prepareGedcom_lookup entries (pointerToId (pointer e)))
    as (-> & -> & ->).
  rewrite !decide_False by done.
  split_and!; intros; by apply (last_filter_is_Some _ _ e).
Qed.

Lemma prepareGedcom_complete_witness :
  is_Some (gd_other (prepareGedcom ex_entries) !! "N1").
Proof.
  assert (mkEntry "NOTE" "@N1@" (Some "text") [] ∈ ex_entries) as Hin.
  { unfold ex_entries. do 3 apply list_elem_of_further.
    apply list_elem_of_here. }
  assert (pointerToId (pointer (mkEntry "NOTE" "@N1@" (Some "text") []))
          ≠ "__proto__") as Hproto by discriminate.
  destruct (prepareGedcom_complete ex_entries _ Hin Hproto) as (_ & _ & H).
  apply H; discriminate.
Defined.

Lemma js_find_app {A : Type} (p : A → bool) (l1 l2 : list A) :
  js_find p (l1 ++ l2)
  = match js_find p l1 with
    | Some x => Some x
    | None => js_find p l2
    end.
Proof.
  unfold js_find. induction l1 as [|x l1 IH]; [done|]. cbn [app find].
  by destruct (p x).
Qed.

(** X10. Indexing a concatenation: the record index of [l1 ++ l2] is the
    index of [l2] completed by the index of [l1] (an identifier filed by
    both keeps the entry of [l2]), and its head is the head of [l1] if
    there is one, else the head of [l2]. *)
Theorem prepareGedcom_app (l1 l2 : list GedcomEntry) :
  gd_indis (prepareGedcom (l1 ++ l2))
  = gd_indis (prepareGedcom l2) ∪ gd_indis (prepareGedcom l1) ∧
  gd_fams (prepareGedcom (l1 ++ l2))
  = gd_fams (prepareGedcom l2) ∪ gd_fams (prepareGedcom l1) ∧
  gd_other (prepareGedcom (l1 ++ l2))
  = gd_other (prepareGedcom l2) ∪ gd_other (prepareGedcom l1) ∧
  head (prepareGedcom (l1 ++ l2))
  = match head (prepareGedcom l1) with
    | Some h => Some h
    | None => head (prepareGedcom l2)
    end.
Proof.
  split_and!.
  - apply map_eq. intros k. rewrite lookup_union.
    destruct (prepareGedcom_lookup (l1 ++ l2) k) as (-> & _ & _).
    destruct (prepareGedcom_lookup l1 k) as (-> & _ & _).
    destruct (prepareGedcom_lookup l2 k) as (-> & _ & _).
    case_decide; [done|]. rewrite filter_app, last_app.
    by destruct (last (filter _ l2)), (last (filter _ l1)).
  - apply map_eq. intros k. rewrite lookup_union.
    destruct (prepareGedcom_lookup (l1 ++ l2) k) as (_ & -> & _).
    destruct (prepareGedcom_lookup l1 k) as (_ & -> & _).
    destruct (prepareGedcom_lookup l2 k) as (_ & -> & _).
    case_decide; [done|]. rewrite filter_app, last_app.
    by destruct (last (filter _ l2)), (last (filter _ l1)).
  - apply map_eq. intros k. rewrite lookup_union.
    destruct (prepareGedcom_lookup (l1 ++ l2) k) as (_ & _ & ->).
    destruct (prepareGedcom_lookup l1 k) as (_ & _ & ->).
    destruct (prepareGedcom_lookup l2 k) as (_ & _ & ->).
    case_decide; [done|]. rewrite filter_app, last_app.
    by destruct (last (filter _ l2)), (last (filter _ l1)).
  - unfold prepareGedcom. cbn [head]. apply js_find_app.
Qed.

(** X11. [prepareGedcom] does not check that a HEAD entry exists: its head
    is absent exactly when no entry of the sequence is tagged HEAD, and is
    otherwise an entry of the sequence tagged HEAD. *)
Theorem prepareGedcom_head (entries : list GedcomEntry) :
  (head (prepareGedcom entries) = None ↔
   ∀ e, e ∈ entries → tag e ≠ "HEAD") ∧
  (∀ h, head (prepareGedcom entries) = Some h →
        h ∈ entries ∧ tag h = "HEAD").
Proof.
  unfold prepareGedcom, js_find. cbn [head]. split.
  - split.
    + intros Hnone e He. apply String.eqb_neq.
      apply (find_none _ _ Hnone e). by apply list_elem_of_In.
    + intros Hall. destruct (find _ entries) as [h|] eqn:Hf; [|done].
      apply find_some in Hf as [Hin Ht]. apply String.eqb_eq in Ht.
      apply list_elem_of_In in Hin. by destruct (Hall h Hin).
  - intros h Hf. apply find_some in Hf as [Hin Ht].
    split; [by apply list_elem_of_In | by apply String.eqb_eq].
Qed.

(** ** More on sorting *)

Lemma same_elements_refl (o : option (list string)) : same_elements o o.
Proof. destruct o; cbn; done. Qed.

Lemma same_elements_trans (o1 o2 o3 : option (list string)) :
  same_elements o1 o2 → same_elements o2 o3 → same_elements o1 o3.
Proof.
  destruct o1, o2, o3; cbn; try done. intros H1 H2. by rewrite H1.
Qed.

Lemma sortFamilyChildren_store (fam : JsonFam)
  (comparator : string → string → Z) (h : Heap) :
  children (sortFamilyChildren fam comparator h).1 = children fam ∧
  (∀ l, same_elements (h !! l) ((sortFamilyChildren fam comparator h).2 !! l)) ∧
  (∀ l, children fam ≠ Some l →
        (sortFamilyChildren fam comparator h).2 !! l = h !! l).
Proof.
  unfold sortFamilyChildren. destruct (children fam) as [l0|] eqn:Hc; cbn.
  - split_and!; [done| |].
    + intros l. destruct (decide (l0 = l)) as [->|Hne].
      * rewrite lookup_alter_eq. destruct (h !! l) as [cs|]; cbn; [|done].
        symmetry. apply js_sort_perm.
      * rewrite lookup_alter_ne by done. apply same_elements_refl.
    + intros l Hne. rewrite lookup_alter_ne; [done|]. congruence.
  - split_and!; [done| |done]. intros l. apply same_elements_refl.
Qed.

(** X12. [sortFamilyChildren] only rearranges: the returned family refers
    to the children array of the input family, every array of the store
    holds the same elements after the call as before, and every array other
    than the family's own is left exactly as it was. *)
Theorem sortFamilyChildren_rearranges (fam : JsonFam)
  (comparator : string → string → Z) (h : Heap) :
  children (sortFamilyChildren fam comparator h).1 = children fam ∧
  (∀ l, same_elements (h !! l) ((sortFamilyChildren fam comparator h).2 !! l)) ∧
  (∀ l, children fam ≠ Some l →
        (sortFamilyChildren fam comparator h).2 !! l = h !! l).
Proof. apply sortFamilyChildren_store. Qed.

(** Consequences of consistency: the comparator is antisymmetric on the
    values, and not-greater is transitive. *)
Lemma consistent_gt_lt {A : Type} (cmp : A → A → Z) (S : list A) (a b : A) :
  consistent_on cmp S → a ∈ S → b ∈ S → cmp a b > 0 → cmp b a < 0.
Proof.
  intros (Hrefl & Hsym & _ & _ & Hgt) Ha Hb Hab.
  destruct (Z.lt_trichotomy (cmp b a) 0) as [Hba|[Hba|Hba]]; [done| |].
  - specialize (Hsym b a Hb Ha Hba). lia.
  - pose proof (Hgt a b a Ha Hb Ha Hab ltac:(lia)) as Haa.
    specialize (Hrefl a Ha). lia.
Qed.

Lemma consistent_lt_gt {A : Type} (cmp : A → A → Z) (S : list A) (a b : A) :
  consistent_on cmp S → a ∈ S → b ∈ S → cmp a b < 0 → cmp b a > 0.
Proof.
  intros (Hrefl & Hsym & _ & Hlt & _) Ha Hb Hab.
  destruct (Z.lt_trichotomy (cmp b a) 0) as [Hba|[Hba|Hba]]; [| |lia].
  - pose proof (Hlt a b a Ha Hb Ha Hab Hba) as Haa.
    specialize (Hrefl a Ha). lia.
  - specialize (Hsym b a Hb Ha Hba). lia.
Qed.

Lemma consistent_le_trans {A : Type} (cmp : A → A → Z) (S : list A)
  (a b c : A) :
  consistent_on cmp S → a ∈ S → b ∈ S → c ∈ S →
  cmp a b <= 0 → cmp b c <= 0 → cmp a c <= 0.
Proof.
  intros Hcons Ha Hb Hc Hab Hbc.
  destruct (Z.le_gt_cases (cmp a c) 0) as [|Hac]; [done|]. exfalso.
  assert (cmp c a < 0) as Hca
    by (apply (consistent_gt_lt cmp S a c); [done..|lia]).
  destruct Hcons as (Hrefl & Hsym & Heq & Hlt & Hgt).
  destruct (Z.lt_trichotomy (cmp a b) 0) as [Hab'|[Hab'|Hab']]; [| |lia];
    destruct (Z.lt_trichotomy (cmp b c) 0) as [Hbc'|[Hbc'|Hbc']]; try lia.
  - pose proof (Hlt a b c Ha Hb Hc Hab' Hbc'). lia.
  - pose proof (Hlt c a b Hc Ha Hb Hca Hab') as Hcb.
    pose proof (Hsym b c Hb Hc Hbc'). lia.
  - pose proof (Hlt b c a Hb Hc Ha Hbc' Hca) as Hba.
    pose proof (Hsym a b Ha Hb Hab'). lia.
  - pose proof (Heq a b c Ha Hb Hc Hab' Hbc'). lia.
Qed.

Lemma consistent_on_subseteq {A : Type} (cmp : A → A → Z) (S S' : list A) :
  (∀ a, a ∈ S' → a ∈ S) → consistent_on cmp S → consistent_on cmp S'.
Proof.
  intros Hsub (Hrefl & Hsym & Heq & Hlt & Hgt).
  split_and!; intros; eauto 10.
Qed.

Lemma sort_insert_elem {A : Type} (cmp : A → A → Z) (x y : A) (l : list A) :
  y ∈ sort_insert cmp x l ↔ y = x ∨ y ∈ l.
Proof. rewrite (sort_insert_perm cmp x l). apply elem_of_cons. Qed.

Lemma js_sort_elem {A : Type} (cmp : A → A → Z) (y : A) (l : list A) :
  y ∈ js_sort cmp l ↔ y ∈ l.
Proof. by rewrite (js_sort_perm cmp l). Qed.

(** On a consistent comparator the model sorts: no element of the result
    compares greater than a later one. *)
Lemma sort_insert_strongly {A : Type} (cmp : A → A → Z) (x : A)
  (s : list A) :
  consistent_on cmp (x :: s) →
  StronglySorted (λ a b, cmp a b <= 0) s →
  StronglySorted (λ a b, cmp a b <= 0) (sort_insert cmp x s).
Proof.
  intros Hcons Hs. induction Hs as [|y s Hs IH Hall]; cbn [sort_insert].
  - by repeat constructor.
  - assert (x ∈ x :: y :: s) as Hx by apply list_elem_of_here.
    assert (y ∈ x :: y :: s) as Hy
      by apply list_elem_of_further, list_elem_of_here.
    destruct (Z.leb_spec (cmp x y) 0) as [Hle|Hgt].
    + constructor; [by constructor|].
      constructor; [done|]. apply Forall_forall. intros z Hz.
      apply (consistent_le_trans cmp (x :: y :: s) x y z); try done.
      * by do 2 apply list_elem_of_further.
      * by apply (proj1 (Forall_forall _ _) Hall).
    + constructor.
      * apply IH. eapply consistent_on_subseteq; [|exact Hcons].
        intros a [->|Ha]%elem_of_cons; [done|].
        by do 2 apply list_elem_of_further.
      * apply Forall_forall. intros z [->|Hz]%sort_insert_elem.
        -- assert (cmp y x < 0)
             by (apply (consistent_gt_lt cmp (x :: y :: s) x y); [done..|lia]).
           lia.
        -- by apply (proj1 (Forall_forall _ _) Hall).
Qed.

Lemma js_sort_strongly {A : Type} (cmp : A → A → Z) (l : list A) :
  consistent_on cmp l →
  StronglySorted (λ a b, cmp a b <= 0) (js_sort cmp l).
Proof.
  induction l as [|x l IH]; intros Hcons; cbn [js_sort]; [constructor|].
  apply sort_insert_strongly.
  - eapply consistent_on_subseteq; [|exact Hcons].
    intros a [->|Ha]%elem_of_cons; [apply list_elem_of_here|].
    apply list_elem_of_further. by apply js_sort_elem in Ha.
  - apply IH. eapply consistent_on_subseteq; [|exact Hcons].
    intros a Ha. by apply list_elem_of_further.
Qed.

(** On a consistent comparator the model is stable: the elements that
    compare equal to a given one keep their order. *)
Lemma sort_insert_class {A : Type} (cmp : A → A → Z) (x a : A) (s : list A) :
  (∀ y, y ∈ s → cmp x y > 0 → cmp x a = 0 → cmp y a = 0 → False) →
  filter (λ y, cmp y a = 0) (sort_insert cmp x s)
  = filter (λ y, cmp y a = 0) (x :: s).
Proof.
  induction s as [|y s IH]; intros Hno; cbn [sort_insert]; [done|].
  destruct (Z.leb_spec (cmp x y) 0) as [Hle|Hgt]; [done|].
  rewrite (filter_cons _ y), IH, !(filter_cons _ x), (filter_cons _ y).
  - destruct (decide (cmp x a = 0)) as [Hx|Hx],
             (decide (cmp y a = 0)) as [Hy|Hy]; try done.
    destruct (Hno y); [apply list_elem_of_here|lia|done..].
  - intros z Hz. apply Hno. by apply list_elem_of_further.
Qed.

Lemma js_sort_stable {A : Type} (cmp : A → A → Z) (l : list A) (a : A) :
  consistent_on cmp l → a ∈ l →
  filter (λ y, cmp y a = 0) (js_sort cmp l) = filter (λ y, cmp y a = 0) l.
Proof.
  intros Hcons Ha. revert Hcons Ha.
  enough (∀ S, consistent_on cmp S → a ∈ S → (∀ y, y ∈ l → y ∈ S) →
               filter (λ y, cmp y a = 0) (js_sort cmp l)
               = filter (λ y, cmp y a = 0) l) as H
    by (intros; by apply (H l)).
  intros S Hcons Ha. induction l as [|x l IH]; intros Hsub; [done|].
  cbn [js_sort]. rewrite sort_insert_class.
  - rewrite !(filter_cons _ x), IH; [done|].
    intros y Hy. by apply Hsub, list_elem_of_further.
  - intros y Hy%js_sort_elem Hxy Hxa Hya.
    assert (x ∈ S) as Hx by apply Hsub, list_elem_of_here.
    assert (y ∈ S) as Hy' by (by apply Hsub, list_elem_of_further).
    destruct Hcons as (_ & Hsym & Heq & _ & _).
    pose proof (Heq x a y Hx Ha Hy' Hxa (Hsym y a Hy' Ha Hya)). lia.
Qed.

Lemma strcmp_consistent (S : list string) : consistent_on strcmp S.
Proof.
  split_and!.
  - intros a _. apply strcmp_refl.
  - intros a b _ _ ->%strcmp_zero. apply strcmp_refl.
  - intros a b c _ _ _ ->%strcmp_zero ->%strcmp_zero. apply strcmp_refl.
  - intros a b c _ _ _ Hab Hbc.
    pose proof (strcmp_transitive a b c ltac:(lia) ltac:(lia)) as Hac.
    destruct (Z.eq_dec (strcmp a c) 0) as [Heq%strcmp_zero|]; [|lia].
    subst c. rewrite (strcmp_antisym a b) in Hbc. lia.
  - intros a b c _ _ _ Hab Hbc.
    pose proof (strcmp_antisym a b). pose proof (strcmp_antisym b c).
    pose proof (strcmp_antisym a c).
    pose proof (strcmp_transitive c b a ltac:(lia) ltac:(lia)) as Hca.
    destruct (Z.eq_dec (strcmp c a) 0) as [Heq%strcmp_zero|]; [|lia].
    subst c. lia.
Qed.

(** X13. With a comparator that is consistent for the children of the
    family (the case in which the language fixes the result of the sort),
    the children array holds, after [sortFamilyChildren], a rearrangement
    of its former contents in which no element compares greater than any
    later one and elements that compare equal keep their relative order. *)
Theorem sortFamilyChildren_sorts (fam : JsonFam)
  (comparator : string → string → Z) (h : Heap) (l : loc)
  (cs : list string) :
  children fam = Some l → h !! l = Some cs →
  consistent_on comparator cs →
  ∃ cs', (sortFamilyChildren fam comparator h).2 !! l = Some cs' ∧
         cs' ≡ₚ cs ∧
         StronglySorted (λ a b, comparator a b <= 0) cs' ∧
         ∀ a, a ∈ cs →
              filter (λ y, comparator y a = 0) cs'
              = filter (λ y, comparator y a = 0) cs.
Proof.
  intros Hl Hcs Hcons.
  destruct (sortFamilyChildren_in_place fam comparator h l Hl) as [_ H2].
  exists (js_sort comparator cs). rewrite H2, Hcs. split_and!.
  - done.
  - apply js_sort_perm.
  - by apply js_sort_strongly.
  - intros a Ha. by apply js_sort_stable.
Qed.

Lemma sortFamilyChildren_sorts_witness :
  ∃ cs', (sortFamilyChildren ex_fam strcmp ex_heap_unsorted).2 !! 0%nat
         = Some cs' ∧
         cs' ≡ₚ ["I2"; "I1"] ∧
         StronglySorted (λ a b, strcmp a b <= 0) cs' ∧
         ∀ a, a ∈ ["I2"; "I1"] →
              filter (λ y, strcmp y a = 0) cs'
              = filter (λ y, strcmp y a = 0) ["I2"; "I1"].
Proof.
  apply (sortFamilyChildren_sorts ex_fam strcmp ex_heap_unsorted 0%nat
           ["I2"; "I1"]).
  - reflexivity.
  - reflexivity.
  - exact (strcmp_consistent ["I2"; "I1"]).
Defined.

(** X26. With a comparator that is consistent for the children of the
    family, [sortFamilyChildren] leaves a children array in which no
    element compares greater than any later one exactly as it is. *)
Theorem sortFamilyChildren_sorted_fixed (fam : JsonFam)
  (comparator : string → string → Z) (h : Heap) (l : loc)
  (cs : list string) :
  children fam = Some l → h !! l = Some cs →
  consistent_on comparator cs →
  StronglySorted (λ a b, comparator a b <= 0) cs →
  (sortFamilyChildren fam comparator h).2 !! l = Some cs.
Proof.
  intros Hl Hcs _ Hs.
  destruct (sortFamilyChildren_in_place fam comparator h l Hl) as [_ H2].
  rewrite H2, Hcs. cbn. f_equal. apply js_sort_sorted_id.
  by apply StronglySorted_Sorted.
Qed.

Lemma sortFamilyChildren_sorted_fixed_witness :
  (sortFamilyChildren ex_fam strcmp ex_heap_sorted).2 !! 0%nat
  = Some ["I1"; "I2"].
Proof.
  apply (sortFamilyChildren_sorted_fixed ex_fam strcmp ex_heap_sorted 0%nat
           ["I1"; "I2"]).
  - reflexivity.
  - reflexivity.
  - exact (strcmp_consistent ["I1"; "I2"]).
  - repeat constructor; vm_compute; discriminate.
Defined.

(** A comparator built from chart data need not be consistent for a
    sequence of children, even one in which no element compares greater
    than a later one: with births on 1, 2 and 1 May 1900 the first and the
    third individual both compare equal to the second, but not to each
    other. *)
Lemma comparator_not_consistent :
  StronglySorted (λ a b, birthDatesComparator ex_chart_may a b <= 0)
    ["I1"; "I2"; "I3"] ∧
  ¬ consistent_on (birthDatesComparator ex_chart_may) ["I1"; "I2"; "I3"].
Proof.
  split.
  - repeat constructor; vm_compute; discriminate.
  - intros (_ & _ & Heq & _ & _).
    specialize (Heq "I1" "I2" "I3").
    assert (birthDatesComparator ex_chart_may "I1" "I3" = -1) as E
      by reflexivity.
    rewrite E in Heq. discriminate Heq;
      first [reflexivity | set_solver].
Qed.

Lemma map_heap_sort_store (comparator : string → string → Z)
  (fs : list JsonFam) (h : Heap) :
  let r := map_heap (λ fam, sortFamilyChildren fam comparator) fs h in
  map children r.1 = map children fs ∧
  (∀ l, same_elements (h !! l) (r.2 !! l)) ∧
  (∀ l, (∀ fam, fam ∈ fs → children fam ≠ Some l) → r.2 !! l = h !! l).
Proof.
  revert h. induction fs as [|fam fs IH]; intros h; cbn [map_heap].
  - cbn. split_and!; [done| |done]. intros l. apply same_elements_refl.
  - destruct (sortFamilyChildren_store fam comparator h) as (Hc & Hs & Hf).
    destruct (sortFamilyChildren fam comparator h) as [fam' h1].
    specialize (IH h1). cbn zeta in IH. destruct IH as (IHc & IHs & IHf).
    destruct (map_heap _ fs h1) as [fs' h2]. cbn [fst snd map] in *.
    split_and!.
    + by rewrite Hc, IHc.
    + intros l. by eapply same_elements_trans.
    + intros l Hl. rewrite IHf.
      * apply Hf, Hl, list_elem_of_here.
      * intros f Hin. by apply Hl, list_elem_of_further.
Qed.

(** X14. [sortChildren] only rearranges arrays of children: the families of
    its result refer to the same children arrays as the families of its
    input, every array of the store holds the same elements afterwards, and
    an array that no family refers to is left exactly as it was. *)
Theorem sortChildren_rearranges (g : JsonGedcomData) (h : Heap) :
  map children (fams (sortChildren g h).1) = map children (fams g) ∧
  (∀ l, same_elements (h !! l) ((sortChildren g h).2 !! l)) ∧
  (∀ l, (∀ fam, fam ∈ fams g → children fam ≠ Some l) →
        (sortChildren g h).2 !! l = h !! l).
Proof.
  rewrite sortChildren_unfold. cbn zeta. cbn [fst snd fams].
  apply map_heap_sort_store.
Qed.

(** ** More on images *)

Lemma filtered_provenance (images : gmap string string)
  (imgs out : list JsonImage) :
  filtered images imgs out →
  (length out ≤ length imgs)%nat ∧
  ∀ img', img' ∈ out →
    (img' ∈ imgs ∧ images !! last_segment (url img') = None ∧
     starts_with_http (url img') ∧ has_image_extension (url img')) ∨
    (∃ img mapped, img ∈ imgs ∧
       images !! last_segment (url img) = Some mapped ∧
       img' = mkImage mapped (title img)).
Proof.
  induction 1 as [|img mapped rest out Hm _ [IHl IH]
                  |img rest out Hm Hl _ [IHl IH]
                  |img rest out Hm Hl _ [IHl IH]]; cbn [length].
  - split; [done|]. intros img' Hin. by apply elem_of_nil in Hin.
  - split; [lia|]. intros img' [->|Hin]%elem_of_cons.
    + right. exists img, mapped. split_and!; [apply list_elem_of_here|done..].
    + destruct (IH img' Hin) as [(? & ?)|(i & m & ? & ?)].
      * left. split; [by apply list_elem_of_further|done].
      * right. exists i, m. split; [by apply list_elem_of_further|done].
  - split; [lia|]. intros img' [->|Hin]%elem_of_cons.
    + left. split_and!; [apply list_elem_of_here|done|tauto..].
    + destruct (IH img' Hin) as [(? & ?)|(i & m & ? & ?)].
      * left. split; [by apply list_elem_of_further|done].
      * right. exists i, m. split; [by apply list_elem_of_further|done].
  - split; [lia|]. intros img' Hin.
    destruct (IH img' Hin) as [(? & ?)|(i & m & ? & ?)].
    + left. split; [by apply list_elem_of_further|done].
    + right. exists i, m. split; [by apply list_elem_of_further|done].
Qed.

Lemma filterImage_fields (indi : JsonIndi) (images : gmap string string) :
  indi_id (filterImage indi images) = indi_id indi ∧
  birth (filterImage indi images) = birth indi.
Proof.
  unfold filterImage. by destruct (indi_images indi) as [[|img imgs]|].
Qed.

(** X15. [filterImage] never adds an image and changes nothing else: the
    id and the birth of the individual are kept, an individual without an
    images field gets none, and every image of the result is either an
    image of the input that is an http link with an image extension and has
    no override, or an image of the input with its url replaced by the
    override of its file name and its title kept; the result has at most as
    many images as the input. *)
Theorem filterImage_never_adds (indi : JsonIndi)
  (images : gmap string string) :
  indi_id (filterImage indi images) = indi_id indi ∧
  birth (filterImage indi images) = birth indi ∧
  (indi_images (filterImage indi images) = None ↔ indi_images indi = None) ∧
  ∀ out, indi_images (filterImage indi images) = Some out →
    ∃ imgs, indi_images indi = Some imgs ∧
      (length out ≤ length imgs)%nat ∧
      ∀ img', img' ∈ out →
        (img' ∈ imgs ∧ images !! last_segment (url img') = None ∧
         starts_with_http (url img') ∧ has_image_extension (url img')) ∨
        (∃ img mapped, img ∈ imgs ∧
           images !! last_segment (url img) = Some mapped ∧
           img' = mkImage mapped (title img)).
Proof.
  destruct (filterImage_fields indi images) as [Hid Hb].
  split; [done|]. split; [done|].
  unfold filterImage. destruct (indi_images indi) as [[|img imgs]|] eqn:Hi.
  - rewrite Hi. split; [done|]. intros out [= <-]. exists []. split; [done|].
    split; [done|]. intros img' Hin. by apply elem_of_nil in Hin.
  - cbn [indi_images]. split; [done|]. intros out [= <-].
    exists (img :: imgs). split; [done|].
    destruct (fold_filter_step images (img :: imgs) []) as (out & Hout & Hf).
    cbn [fold_left app] in Hout. rewrite Hout.
    by apply filtered_provenance.
  - rewrite Hi. split; [done|]. by intros out [=].
Qed.

Lemma fold_filter_step_empty (imgs acc : list JsonImage) :
  fold_left (filter_step ∅) imgs acc = acc ++ List.filter accepted_link imgs.
Proof.
  revert acc. induction imgs as [|img imgs IH]; intros acc; cbn [fold_left].
  - by rewrite app_nil_r.
  - rewrite IH. unfold filter_step. rewrite lookup_empty.
    cbn [List.filter]. unfold accepted_link at 2.
    destruct (js_startsWith (url img) "http" && isImageFile (url img));
      [by rewrite <- app_assoc | done].
Qed.

Lemma list_filter_idemp {A : Type} (p : A → bool) (l : list A) :
  List.filter p (List.filter p l) = List.filter p l.
Proof.
  induction l as [|x l IH]; [done|]. cbn [List.filter].
  destruct (p x) eqn:Hp; [|done]. cbn [List.filter]. by rewrite Hp, IH.
Qed.

(** X16. Without overrides [filterImage] keeps exactly the images that are
    http links with an image extension, in their order, and filtering a
    second time changes nothing. *)
Theorem filterImage_no_overrides (indi : JsonIndi) :
  (∀ imgs, indi_images indi = Some imgs →
           indi_images (filterImage indi ∅)
           = Some (List.filter accepted_link imgs)) ∧
  filterImage (filterImage indi ∅) ∅ = filterImage indi ∅.
Proof.
  assert (∀ i imgs, indi_images i = Some imgs →
            indi_images (filterImage i ∅)
            = Some (List.filter accepted_link imgs)) as Hfilter.
  { intros i imgs Hi. unfold filterImage. rewrite Hi.
    destruct imgs as [|img imgs]; [by rewrite Hi|].
    cbn [indi_images]. by rewrite fold_filter_step_empty. }
  split; [apply Hfilter|].
  destruct (indi_images indi) as [imgs|] eqn:Hi.
  - destruct imgs as [|img imgs].
    { unfold filterImage at 2. rewrite Hi. unfold filterImage. by rewrite Hi. }
    assert (filterImage indi ∅
            = mkIndi (indi_id indi) (birth indi)
                (Some (List.filter accepted_link (img :: imgs)))) as ->.
    { unfold filterImage. rewrite Hi. by rewrite fold_filter_step_empty. }
    unfold filterImage. cbn [indi_images indi_id birth].
    destruct (List.filter accepted_link (img :: imgs)) as [|x l] eqn:Hl;
      [done|].
    rewrite fold_filter_step_empty. cbn [app].
    by rewrite <- Hl, list_filter_idemp.
  - unfold filterImage at 2. rewrite Hi. unfold filterImage. by rewrite Hi.
Qed.

Lemma fold_insert_fmap (f : JsonIndi → JsonIndi) (l : list JsonIndi)
  (m : gmap string JsonIndi) :
  (∀ i, indi_id (f i) = indi_id i) →
  fold_left (λ m indi, <[indi_id indi := indi]> m) (map f l) (f <$> m)
  = f <$> fold_left (λ m indi, <[indi_id indi := indi]> m) l m.
Proof.
  intros Hid. revert m. induction l as [|i l IH]; intros m; [done|].
  cbn [map fold_left]. rewrite Hid, <- fmap_insert. apply IH.
Qed.

Lemma idToIndiMap_filterImages (g : JsonGedcomData)
  (images : gmap string string) (k : string) :
  idToIndiMap (filterImages g images) !! k
  = (λ indi, filterImage indi images) <$> idToIndiMap g !! k.
Proof.
  unfold idToIndiMap, filterImages. cbn [indis]. rewrite <- lookup_fmap.
  f_equal. rewrite <- fold_insert_fmap.
  - by rewrite fmap_empty.
  - intros i. by destruct (filterImage_fields i images).
Qed.

Lemma resolved_date_filterImage (o : option JsonIndi)
  (images : gmap string string) :
  resolved_date ((λ indi, filterImage indi images) <$> o) = resolved_date o.
Proof.
  destruct o as [i|]; [|done]. cbn.
  destruct (filterImage_fields i images) as [_ ->]. done.
Qed.

Lemma comparator_filterImages (g : JsonGedcomData)
  (images : gmap string string) (id1 id2 : string) :
  birthDatesComparator (filterImages g images) id1 id2
  = birthDatesComparator g id1 id2.
Proof.
  unfold birthDatesComparator.
  by rewrite !idToIndiMap_filterImages, !resolved_date_filterImage.
Qed.

(** X17. Filtering images does not disturb the ordering of individuals:
    the comparator built from the filtered chart data agrees with the one
    built from the original, the ids of the individuals are kept in their
    order, and the families are untouched. *)
Theorem filterImages_keeps_order (g : JsonGedcomData)
  (images : gmap string string) :
  (∀ id1 id2, birthDatesComparator (filterImages g images) id1 id2
              = birthDatesComparator g id1 id2) ∧
  map indi_id (indis (filterImages g images)) = map indi_id (indis g) ∧
  fams (filterImages g images) = fams g.
Proof.
  split_and!.
  - apply comparator_filterImages.
  - unfold filterImages. cbn [indis]. rewrite map_map.
    apply map_ext. intros i. by destruct (filterImage_fields i images).
  - done.
Qed.

Lemma sort_insert_ext {A : Type} (cmp1 cmp2 : A → A → Z) (x : A)
  (l : list A) :
  (∀ a b, cmp1 a b = cmp2 a b) → sort_insert cmp1 x l = sort_insert cmp2 x l.
Proof.
  intros Hext. induction l as [|y l IH]; [done|]. cbn [sort_insert].
  by rewrite Hext, IH.
Qed.

Lemma js_sort_ext {A : Type} (cmp1 cmp2 : A → A → Z) (l : list A) :
  (∀ a b, cmp1 a b = cmp2 a b) → js_sort cmp1 l = js_sort cmp2 l.
Proof.
  intros Hext. induction l as [|x l IH]; [done|]. cbn [js_sort]. rewrite IH.
  by apply sort_insert_ext.
Qed.

Lemma map_heap_sort_ext (cmp1 cmp2 : string → string → Z)
  (fs : list JsonFam) (h : Heap) :
  (∀ a b, cmp1 a b = cmp2 a b) →
  map_heap (λ fam, sortFamilyChildren fam cmp1) fs h
  = map_heap (λ fam, sortFamilyChildren fam cmp2) fs h.
Proof.
  intros Hext. revert h. induction fs as [|fam fs IH]; intros h; [done|].
  cbn [map_heap].
  assert (sortFamilyChildren fam cmp1 h = sortFamilyChildren fam cmp2 h) as ->.
  { unfold sortFamilyChildren. destruct (children fam) as [l|]; [|done].
    f_equal. apply alter_ext. intros cs _. by apply js_sort_ext. }
  destruct (sortFamilyChildren fam cmp2 h) as [fam' h1]. by rewrite IH.
Qed.

(** X18. The two passes of the conversion commute: sorting the children of
    chart data whose images have been filtered gives the same store and the
    same chart data as filtering the images after sorting. *)
Theorem sortChildren_filterImages (g : JsonGedcomData)
  (images : gmap string string) (h : Heap) :
  sortChildren (filterImages g images) h
  = (filterImages (sortChildren g h).1 images, (sortChildren g h).2).
Proof.
  rewrite !sortChildren_unfold. cbn zeta. cbn [fst snd].
  change (fams (filterImages g images)) with (fams g).
  rewrite (map_heap_sort_ext _ (birthDatesComparator g))
    by apply comparator_filterImages.
  reflexivity.
Qed.

(** ** File names and extensions *)

Lemma match_fileName_no_sep (s : string) :
  no_sep s = true → match_fileName s = s.
Proof. intros H. destruct s; cbn [match_fileName]; by rewrite H. Qed.

Lemma no_sep_app_sep (dir name : string) (c : ascii) :
  is_sep c = true → no_sep (dir +:+ String c name) = false.
Proof.
  intros Hc. induction dir as [|a dir IH].
  - rewrite append_empty. cbn [no_sep]. by rewrite Hc.
  - rewrite append_String. cbn [no_sep]. rewrite IH. apply andb_false_r.
Qed.

(** X19. The file name of a path that ends in a separator ('/' or '\')
    followed by a name without separators is that name, whatever precedes
    the separator. *)
Theorem match_fileName_join (dir name : string) (c : ascii) :
  is_sep c = true → no_sep name = true →
  match_fileName (dir +:+ String c name) = name.
Proof.
  intros Hc Hn. induction dir as [|a dir IH].
  - rewrite append_empty. cbn [match_fileName no_sep]. rewrite Hc. cbn.
    by apply match_fileName_no_sep.
  - rewrite append_String. cbn [match_fileName].
    change (no_sep (String a (dir +:+ String c name)))
      with (negb (is_sep a) && no_sep (dir +:+ String c name)).
    rewrite (no_sep_app_sep dir name c Hc), andb_false_r. apply IH.
Qed.

Lemma match_fileName_join_witness :
  match_fileName ("http://example.com/media" +:+ String "/" "photo.jpg")
  = "photo.jpg".
Proof.
  apply (match_fileName_join "http://example.com/media" "photo.jpg" "/");
    reflexivity.
Defined.

(** X20. The file name extracted from a url never contains a separator, is
    a suffix of the url, and a url without separators is its own file
    name. *)
Theorem match_fileName_suffix (s : string) :
  no_sep (match_fileName s) = true ∧
  (∃ pre, s = pre +:+ match_fileName s) ∧
  (no_sep s = true → match_fileName s = s).
Proof.
  split_and!; [| |apply match_fileName_no_sep].
  - induction s as [|c s IH]; [done|]. cbn [match_fileName].
    by destruct (no_sep (String c s)) eqn:Hn.
  - induction s as [|c s [pre IH]]; [by exists EmptyString|].
    cbn [match_fileName]. destruct (no_sep (String c s)) eqn:Hn.
    + by exists EmptyString.
    + exists (String c pre). rewrite append_String. by rewrite <- IH.
Qed.

Lemma lower_unit_idemp (c : ascii) : lower_unit (lower_unit c) = lower_unit c.
Proof.
  destruct c as [[] [] [] [] [] [] [] []]; vm_compute; reflexivity.
Qed.

Lemma js_toLowerCase_idemp (s : string) :
  js_toLowerCase (js_toLowerCase s) = js_toLowerCase s.
Proof.
  induction s as [|c s IH]; [done|]. cbn [js_toLowerCase].
  by rewrite lower_unit_idemp, IH.
Qed.

Lemma js_toLowerCase_app (a b : string) :
  js_toLowerCase (a +:+ b) = js_toLowerCase a +:+ js_toLowerCase b.
Proof.
  induction a as [|c a IH]; [done|].
  rewrite append_String. cbn [js_toLowerCase]. by rewrite IH, append_String.
Qed.

Lemma js_toLowerCase_length (s : string) :
  String.length (js_toLowerCase s) = String.length s.
Proof. induction s as [|c s IH]; [done|]. cbn. by rewrite IH. Qed.

(** X21. [isImageFile] ignores case and looks at the end of the name only:
    a name and its lower-cased form are judged alike, every name that ends
    with an extension whose lower-cased form is '.jpg', '.png' or '.gif' is
    an image file, and no name shorter than four characters is. *)
Theorem isImageFile_case (u : string) :
  isImageFile (js_toLowerCase u) = isImageFile u ∧
  (∀ stem ext, js_toLowerCase ext ∈ IMAGE_EXTENSIONS →
               isImageFile (stem +:+ ext) = true) ∧
  (isImageFile u = true → (4 ≤ String.length u)%nat).
Proof.
  split_and!.
  - unfold isImageFile. by rewrite js_toLowerCase_idemp.
  - intros stem ext Hext. apply isImageFile_spec.
    exists (js_toLowerCase stem), (js_toLowerCase ext).
    split; [exact Hext|]. apply js_toLowerCase_app.
  - intros (stem & ext & Hext & Heq)%isImageFile_spec.
    rewrite <- js_toLowerCase_length, Heq, append_length.
    assert (String.length ext = 4%nat) as ->; [|lia].
    repeat (apply elem_of_cons in Hext as [->|Hext]; [reflexivity|]).
    by apply elem_of_nil in Hext.
Qed.

(** ** More on the authoring software *)

Lemma js_find_first {A : Type} (p : A → bool) (pre post : list A) (x : A) :
  (∀ y, y ∈ pre → p y = false) → p x = true →
  js_find p (pre ++ x :: post) = Some x.
Proof.
  intros Hpre Hx. unfold js_find. induction pre as [|y pre IH]; cbn [app find].
  - by rewrite Hx.
  - rewrite (Hpre y) by apply list_elem_of_here.
    apply IH. intros z Hz. by apply Hpre, list_elem_of_further.
Qed.

(** X22. [getSoftware] consults the first SOUR entry of the head only: the
    entries before and after it, later SOUR entries included, do not
    change the result. *)
Theorem getSoftware_first_sour (h sour : GedcomEntry)
  (pre post : list GedcomEntry) :
  tree h = pre ++ sour :: post →
  (∀ e, e ∈ pre → tag e ≠ "SOUR") → tag sour = "SOUR" →
  getSoftware (Some h) = getSoftware (Some (mkEntry "HEAD" "" None [sour])).
Proof.
  intros Htree Hpre Hsour. unfold getSoftware. rewrite Htree. cbn [tree].
  rewrite (js_find_first _ pre post sour).
  - rewrite (js_find_first _ [] [] sour); [done| |by apply String.eqb_eq].
    intros y Hy. by apply elem_of_nil in Hy.
  - intros y Hy. by apply String.eqb_neq, Hpre.
  - by apply String.eqb_eq.
Qed.

Lemma getSoftware_first_sour_witness :
  getSoftware (Some ex_head)
  = getSoftware
      (Some (mkEntry "HEAD" "" None
               [mkEntry "SOUR" "" (Some "APP")
                  [mkEntry "VERS" "" (Some "1") []]])).
Proof.
  apply (getSoftware_first_sour ex_head _
           [mkEntry "CHAR" "" (Some "UTF-8") []]
           [mkEntry "SOUR" "" (Some "OTHER")
              [mkEntry "NAME" "" (Some "Other") []]]).
  - reflexivity.
  - intros e [->|He]%elem_of_cons; [discriminate|].
    by apply elem_of_nil in He.
  - reflexivity.
Defined.

(** ** More on the conversion *)

(** X23. What the parser or the converter throws propagates unchanged, and
    nothing else is reported as an upstream failure: [convertGedcom] fails
    with the failure [e] exactly when the parser threw [e], or the parser
    returned and the converter threw [e]. *)
Theorem convertGedcom_upstream {Upstream : Type}
  (parseGedcom : string → Upstream + list GedcomEntry)
  (gedcomEntriesToJson : list GedcomEntry → Upstream + (option RawJson * Heap))
  (text : string) (images : gmap string string) (e : Upstream) :
  convertGedcom Upstream parseGedcom gedcomEntriesToJson text images
  = inl (UpstreamFailure e)
  ↔ parseGedcom text = inl e ∨
    ∃ entries, parseGedcom text = inr entries ∧
               gedcomEntriesToJson entries = inl e.
Proof.
  unfold convertGedcom.
  destruct (parseGedcom text) as [e1|entries] eqn:Hp.
  - split; [intros [= ->]; by left|].
    intros [[= ->]|(? & [=] & _)]. done.
  - destruct (gedcomEntriesToJson entries) as [e2|[json h]] eqn:Hc.
    + split; [intros [= ->]; right; by exists entries|].
      intros [[=]|(? & [= <-] & Hc')]. congruence.
    + destruct (checked json) as [g|].
      * destruct (idToIndiMap_throws g), (sortChildren g h) as [sorted h'];
          (split; [done|]); intros [[=]|(? & [= <-] & Hc')]; congruence.
      * split; [done|]. intros [[=]|(? & [= <-] & Hc')]. congruence.
Qed.

(** X24. A result of [convertGedcom] is built from what the parser and the
    converter returned: its record index is that of the parsed entries, its
    individuals are the converter's individuals with their images filtered,
    its families refer to the children arrays of the converter's families,
    and every array of the store holds the same elements as in the store
    the converter returned. *)
Theorem convertGedcom_result {Upstream : Type}
  (parseGedcom : string → Upstream + list GedcomEntry)
  (gedcomEntriesToJson : list GedcomEntry → Upstream + (option RawJson * Heap))
  (text : string) (images : gmap string string) (t : TopolaData)
  (h' : Heap) :
  convertGedcom Upstream parseGedcom gedcomEntriesToJson text images
  = inr (t, h') →
  ∃ entries j inds fs h,
    parseGedcom text = inr entries ∧
    gedcomEntriesToJson entries = inr (Some j, h) ∧
    raw_indis j = Some inds ∧ raw_fams j = Some fs ∧
    gedcom t = prepareGedcom entries ∧
    indis (chartData t) = map (λ indi, filterImage indi images) inds ∧
    map children (fams (chartData t)) = map children fs ∧
    ∀ l, same_elements (h !! l) (h' !! l).
Proof.
  unfold convertGedcom.
  destruct (parseGedcom text) as [e1|entries] eqn:Hp; [done|].
  destruct (gedcomEntriesToJson entries) as [e2|[json h]] eqn:Hconv; [done|].
  destruct (checked json) as [g|] eqn:Hg; [|done].
  apply checked_Some in Hg as (j & -> & Hi & Hf & _ & _).
  destruct (idToIndiMap_throws g); [done|].
  rewrite sortChildren_unfold. cbn zeta. intros [= <- <-].
  exists entries, j, (indis g), (fams g), h.
  destruct (map_heap_sort_store (birthDatesComparator g) (fams g) h)
    as (Hc & Hs & _).
  split_and!; done.
Qed.

Lemma convertGedcom_result_witness :
  ∃ t h', convertGedcom Empty_set ex_parse ex_convert "0 HEAD" ex_overrides
          = inr (t, h') ∧
          gedcom t = prepareGedcom ex_entries.
Proof.
  destruct (convertGedcom Empty_set ex_parse ex_convert "0 HEAD" ex_overrides)
    as [e|[t h']] eqn:E.
  - vm_compute in E. discriminate E.
  - exists t, h'. split; [reflexivity|].
    destruct (convertGedcom_result ex_parse ex_convert "0 HEAD" ex_overrides
                t h' E) as (entries & j & inds & fs & h & Hp & _ & _ & _ & Hg & _).
    injection Hp as <-. exact Hg.
Defined.

(** ** Deciding whether to load *)

Lemma truthy_opt_spec (o : option string) :
  truthy_opt o = true ↔ ∃ s, o = Some s ∧ s ≠ "".
Proof.
  destruct o as [s|]; cbn.
  - rewrite truthy_string_spec. split; [by exists s|]. by intros (? & [= <-] & ?).
  - split; [done|]. by intros (? & [=] & _).
Qed.

(** X25. [isNewData] answers no for the request the state already records,
    and answers yes exactly when a non-empty hash differs from the recorded
    hash or a non-empty url differs from the recorded url; a request with
    neither hash nor url is never new. *)
Theorem isNewData_spec (state : State) (hash url : option string) :
  isNewData state (st_hash state) (st_url state) = false ∧
  isNewData state None None = false ∧
  (isNewData state hash url = true ↔
   (∃ s, hash = Some s ∧ s ≠ "" ∧ st_hash state ≠ Some s) ∨
   (∃ s, url = Some s ∧ s ≠ "" ∧ st_url state ≠ Some s)).
Proof.
  unfold isNewData, strict_neq. split_and!.
  - rewrite !bool_decide_eq_true_2 by done. cbn. by rewrite !andb_false_r.
  - done.
  - rewrite orb_true_iff, !andb_true_iff, !negb_true_iff,
      !bool_decide_eq_false, !truthy_opt_spec.
    split.
    + intros [[(s & -> & Hs) Hne]|[(s & -> & Hs) Hne]].
      * left. exists s. split_and!; [done..|]. congruence.
      * right. exists s. split_and!; [done..|]. congruence.
    + intros [(s & -> & Hs & Hne)|(s & -> & Hs & Hne)].
      * left. split; [by exists s|]. congruence.
      * right. split; [by exists s|]. congruence.
Qed.
